(** * Inventory agent, web interface script and delivery pipeline

    Shallow embedding of [agent/web/static/js/app.js] (the script of the
    agent's local web interface) and of the collection pipeline that the
    specification describes around it.

    The first part follows the script function by function: [APP_CONFIG],
    [appState], [makeApiCall], [formatBytes], [setDebugMode] and the
    statements the script runs when it is loaded.  Effects are explicit: a
    [Page] value holds everything the script can mutate, and the network is
    an environment that answers each [fetch].

    The second part models the report assembler, the scheduler and the
    delivery queue of the specification; their code is not in the script,
    and the definitions there follow the specification. *)

From Stdlib Require Import ZArith List String Ascii Bool Lia.
From stdpp Require Import base gmap strings list pretty.

Set Warnings "-register-all,-clear-no-such-hyp".

(** ** JavaScript values and built-ins used by the script *)

Module JS.

Local Open Scope string_scope.

(** An [Error] object, as far as the script looks at it. *)
Record Error := mkError { name : string; message : string }.

(** Values that travel as request data or parsed responses.  They are
    finite trees, so [JSON.stringify] never fails on them. *)
Inductive Value :=
| undefined
| null
| boolean (b : bool)
| number (z : Z)
| text (s : string)
| array (items : list Value)
| object (fields : list (string * Value)).

(** ToBoolean, which decides [data && ...]. *)
Definition truthy (v : Value) : bool :=
  match v with
  | undefined | null => false
  | boolean b => b
  | number z => negb (z =? 0)%Z
  | text s => negb (String.eqb s "")
  | array _ | object _ => true
  end.

(** [String(b)] for a boolean, what [localStorage.setItem] stores. *)
Definition String_of_bool (b : bool) : string :=
  if b then "true" else "false".

Definition upper_ascii (c : ascii) : ascii :=
  let n := nat_of_ascii c in
  if (97 <=? n)%nat && (n <=? 122)%nat then ascii_of_nat (n - 32) else c.

(** [s.toUpperCase()] on the ASCII letters (HTTP method names). *)
Fixpoint toUpperCase (s : string) : string :=
  match s with
  | EmptyString => EmptyString
  | String c rest => String (upper_ascii c) (toUpperCase rest)
  end.

(** [s.includes(sub)]. *)
Definition includes (s sub : string) : bool :=
  match String.index 0 sub s with
  | Some _ => true
  | None => false
  end.

(** Numbers.  The finite ones are rationals, [int z] or [fraction n d]
    for [n / d]: every double is one, and so is every byte count and
    digit count.  NaN and the two infinities are kept.  The arithmetic of
    [formatBytes] is exact on them as it is on doubles: its division is by
    a power of two and [toFixed] reads the exact value.  The two places
    where doubles round are modelled as such: [parseFloat] and the text of
    a number below, and [Math.log] with [formatBytes]. *)
Inductive Number :=
| NaN
| Infinity
| NegInfinity
| int (z : Z)
| fraction (num : Z) (den : positive).

(** The value of [bytes / Math.pow(k, i)]. *)
Inductive Quotient :=
| q_nan
| q_infinity (negative : bool)
| ratio (num den : Z).

(** [x === 0]. *)
Definition is_zero (x : Number) : bool :=
  match x with
  | int z => (z =? 0)%Z
  | fraction n _ => (n =? 0)%Z
  | _ => false
  end.

(** [x < 0]. *)
Definition is_negative (x : Number) : bool :=
  match x with
  | int z => (z <? 0)%Z
  | fraction n _ => (n <? 0)%Z
  | NegInfinity => true
  | _ => false
  end.

Fixpoint floor_log_fuel (fuel : nat) (k z : Z) : Z :=
  match fuel with
  | O => 0
  | S fuel' =>
      if (z <? k)%Z then 0%Z
      else (1 + floor_log_fuel fuel' k (z / k))%Z
  end.

(** The greatest [e] with [k ^ e <= z], for [2 <= k] and [1 <= z]. *)
Definition floor_log (k z : Z) : Z :=
  floor_log_fuel (S (Z.to_nat (Z.log2 z))) k z.

(** The greatest [e] with [k ^ e <= n / d], for [2 <= k] and positive [n]
    and [d]: below 1 it is the opposite of the least [e] with
    [d <= n * k ^ e]. *)
Definition floor_log_ratio (k n d : Z) : Z :=
  if (d <=? n)%Z then floor_log k (n / d)
  else (- (1 + floor_log k ((d - 1) / n)))%Z.

(** [Math.floor(Math.log(x) / Math.log(k))] for a base [k] above 1, as
    the exact value.  ECMAScript leaves the precision of [Math.log] to the
    engine, and the quotient of two rounded logarithms can reach the next
    integer for an [x] just below a power of [k]: [formatBytes_on] takes
    what the engine computes, and this is the value without rounding. *)
Definition Math_floor_log_ratio (x : Number) (k : Z) : Number :=
  match x with
  | NaN | NegInfinity => NaN
  | Infinity => Infinity
  | int z =>
      if (z <? 0)%Z then NaN
      else if (z =? 0)%Z then NegInfinity
      else int (floor_log k z)
  | fraction n d =>
      if (n <? 0)%Z then NaN
      else if (n =? 0)%Z then NegInfinity
      else int (floor_log_ratio k n (Z.pos d))
  end.

(** [n / d] divided by [Math.pow(k, e)] for a base [k] that is a power of
    two: the power is exact while it is a double, Infinity from 2^1024 up
    and 0 from 2^-1075 down. *)
Definition div_pow_finite (n d k e : Z) : Quotient :=
  if (0 <=? e)%Z then
    if (2 ^ 1024 <=? k ^ e)%Z then ratio 0 1 else ratio n (d * k ^ e)
  else
    if (2 ^ 1075 <=? k ^ (- e))%Z then
      if (n =? 0)%Z then q_nan else q_infinity (n <? 0)%Z
    else ratio (n * k ^ (- e)) d.

(** [Math.floor(x)]. *)
Definition Math_floor (x : Number) : Number :=
  match x with
  | fraction n d => int (n / Z.pos d)
  | _ => x
  end.

(** [x / Math.pow(k, i)] for a base [k] above 1 that is a power of two
    and a whole [i], as [Math.floor] returns them. *)
Definition div_pow (x : Number) (k : Z) (i : Number) : Quotient :=
  match Math_floor i, x with
  | NaN, _ | _, NaN => q_nan
  | fraction _ _, _ => q_nan
  | Infinity, int _ | Infinity, fraction _ _ => ratio 0 1
  | Infinity, _ => q_nan
  | NegInfinity, int z =>
      if (z =? 0)%Z then q_nan else q_infinity (z <? 0)%Z
  | NegInfinity, fraction n _ =>
      if (n =? 0)%Z then q_nan else q_infinity (n <? 0)%Z
  | NegInfinity, Infinity => q_infinity false
  | NegInfinity, NegInfinity => q_infinity true
  | int e, Infinity => q_infinity false
  | int e, NegInfinity => q_infinity true
  | int e, int z => div_pow_finite z 1 k e
  | int e, fraction n d => div_pow_finite n (Z.pos d) k e
  end.

(** [a[i]] on an array of strings: only an integer index inside the array
    finds an element, every other key reads [undefined]. *)
Definition element (a : list string) (i : Number) : option string :=
  match i with
  | int z => if (z <? 0)%Z then None else nth_error a (Z.to_nat z)
  | fraction n d =>
      if (n <? 0)%Z || negb (n mod Z.pos d =? 0)%Z then None
      else nth_error a (Z.to_nat (n / Z.pos d))
  | _ => None
  end.

(** String concatenation with an array element that may be missing. *)
Definition String_of_element (e : option string) : string :=
  match e with
  | Some s => s
  | None => "undefined"
  end.

(** *** Doubles and their text *)

(** [n / (d * 2 ^ e)] as a fraction. *)
Definition scaled (n d e : Z) : Z * Z :=
  if (0 <=? e)%Z then (n, d * 2 ^ e)%Z else (n * 2 ^ (- e), d)%Z.

(** The integer nearest to [n / d], the even one on a tie. *)
Definition round_half_even (n d : Z) : Z :=
  let q := (n / d)%Z in
  match (2 * (n mod d) ?= d)%Z with
  | Lt => q
  | Gt => (q + 1)%Z
  | Eq => if Z.even q then q else (q + 1)%Z
  end.

(** The double nearest to [n / d] for positive [n] and [d], ties to even:
    [Some (m, e)] is the double [m * 2 ^ e], with [m] from 2^52 to
    2^53 - 1, or with [e = -1074] and [m] below 2^52 for a subnormal and
    for 0; [None] is Infinity. *)
Definition nearest_double (n d : Z) : option (Z * Z) :=
  let e1 := (Z.log2 n - Z.log2 d - 52)%Z in
  let e2 := if (let '(a, b) := scaled n d e1 in a / b <? 2 ^ 52)%Z
            then (e1 - 1)%Z else e1 in
  let e := Z.max e2 (-1074) in
  let m := let '(a, b) := scaled n d e in round_half_even a b in
  if (m =? 2 ^ 53)%Z then
    if (971 <? e + 1)%Z then None else Some (2 ^ 52, e + 1)%Z
  else if (971 <? e)%Z then None else Some (m, e).

(** [10 ^ n <= a / b]. *)
Definition at_least_pow10 (a b n : Z) : bool :=
  if (0 <=? n)%Z then (10 ^ n * b <=? a)%Z else (b <=? a * 10 ^ (- n))%Z.

Fixpoint lower (fuel : nat) (a b n : Z) : Z :=
  match fuel with
  | O => n
  | S fuel' =>
      if at_least_pow10 a b (n - 1) then n else lower fuel' a b (n - 1)
  end.

Fixpoint raise (fuel : nat) (a b n : Z) : Z :=
  match fuel with
  | O => n
  | S fuel' => if at_least_pow10 a b n then raise fuel' a b (n + 1) else n
  end.

(** The [n] with [10 ^ (n - 1) <= a / b < 10 ^ n], for a positive
    [a / b]: an estimate from the binary logarithms, less than two off,
    then corrected. *)
Definition decimal_point (a b : Z) : Z :=
  let guess := ((Z.log2 a - Z.log2 b) * 1233 / 4096)%Z in
  raise 8 a b (lower 8 a b guess).

(** [s * 10 ^ (n - k)] as a fraction. *)
Definition decimal_fraction (s n k : Z) : Z * Z :=
  if (0 <=? n - k)%Z then (s * 10 ^ (n - k), 1)%Z else (s, 10 ^ (k - n))%Z.

Definition same_double (x y : option (Z * Z)) : bool :=
  match x, y with
  | Some (m, e), Some (m', e') => (m =? m')%Z && (e =? e')%Z
  | _, _ => false
  end.

(** The [k]-digit integer [s] for which [s * 10 ^ (n - k)] is read back as
    the double [m * 2 ^ e], if there is one: the one nearest to the double
    when there are two, the even one on a tie. *)
Definition digits_of_length (m e n k : Z) : option Z :=
  let '(a, b) := scaled m 1 (- e) in
  let '(a', b') :=
    if (0 <=? k - n)%Z then (a * 10 ^ (k - n), b)%Z
    else (a, b * 10 ^ (n - k))%Z in
  let lo := (a' / b')%Z in
  let hi := (lo + 1)%Z in
  let reads_back s :=
    let '(c, d) := decimal_fraction s n k in
    same_double (nearest_double c d) (Some (m, e)) in
  match reads_back lo, reads_back hi with
  | true, true =>
      Some (match (2 * (a' mod b') ?= b')%Z with
            | Lt => lo
            | Gt => hi
            | Eq => if Z.even lo then lo else hi
            end)
  | true, false => Some lo
  | false, true => Some hi
  | false, false => None
  end.

(** The shortest digits that are read back as the positive double
    [m * 2 ^ e], their count and the position of the decimal point: the
    [s], [k] and [n] of [Number::toString].  17 digits always do. *)
Definition shortest (m e : Z) : Z * Z * Z :=
  let '(a, b) := scaled m 1 (- e) in
  let n := decimal_point a b in
  let found :=
    List.fold_right
      (fun k later =>
         match digits_of_length m e n k with
         | Some s => Some (s, k)
         | None => later
         end)
      None [1; 2; 3; 4; 5; 6; 7; 8; 9; 10; 11; 12; 13; 14; 15; 16; 17]%Z in
  match found with
  | Some (s, k) => if (s =? 10 ^ k)%Z then (1, 1, n + 1)%Z else (s, k, n)
  | None => (0, 1, n)%Z
  end.

Fixpoint zeros (n : nat) : string :=
  match n with
  | O => ""
  | S n' => String "0" (zeros n')
  end.

(** [Number::toString] in radix 10, given the [k] digits [s] and the
    position [n] of the decimal point. *)
Definition String_of_digits (s k n : Z) : string :=
  let digits := pretty s in
  if (k <=? n)%Z && (n <=? 21)%Z then digits +:+ zeros (Z.to_nat (n - k))
  else if (0 <? n)%Z && (n <=? 21)%Z then
    String.substring 0 (Z.to_nat n) digits +:+ "." +:+
    String.substring (Z.to_nat n) (Z.to_nat (k - n)) digits
  else if (-6 <? n)%Z && (n <=? 0)%Z then
    "0." +:+ zeros (Z.to_nat (- n)) +:+ digits
  else
    let exponent :=
      (if (0 <=? n - 1)%Z then "+" else "-") +:+ pretty (Z.abs (n - 1)) in
    if (k =? 1)%Z then digits +:+ "e" +:+ exponent
    else String.substring 0 1 digits +:+ "." +:+
         String.substring 1 (Z.to_nat (k - 1)) digits +:+ "e" +:+ exponent.

(** The text of the double nearest to the positive [n / d]. *)
Definition String_of_nearest (n d : Z) : string :=
  match nearest_double n d with
  | None => "Infinity"
  | Some (m, e) =>
      if (m =? 0)%Z then "0"
      else let '(s, k, p) := shortest m e in String_of_digits s k p
  end.

Definition digit (c : ascii) : option Z :=
  let n := Z.of_N (N_of_ascii c) in
  if (48 <=? n)%Z && (n <=? 57)%Z then Some (n - 48)%Z else None.

(** The value of a run of digits after [acc]. *)
Fixpoint digits_from (s : string) (acc : Z) : option Z :=
  match s with
  | EmptyString => Some acc
  | String c rest =>
      match digit c with
      | Some d => digits_from rest (10 * acc + d)%Z
      | None => None
      end
  end.

(** The exponent of a numeral, with its sign: the [+21] of [1e+21]. *)
Definition exponent_of (s : string) : option Z :=
  match s with
  | EmptyString => None
  | String c rest =>
      if Ascii.eqb c "+" then digits_from rest 0
      else if Ascii.eqb c "-" then option_map Z.opp (digits_from rest 0)
      else None
  end.

(** The value of a numeral as a fraction: digits with at most one point,
    and the exponent that [toFixed] writes from 1e21 on. *)
Fixpoint decimal_from (s : string) (num den : Z) (point : bool)
    : option (Z * Z) :=
  match s with
  | EmptyString => Some (num, den)
  | String c rest =>
      if Ascii.eqb c "." then
        if point then None else decimal_from rest num den true
      else if Ascii.eqb c "e" then
        match exponent_of rest with
        | Some e =>
            Some (if (0 <=? e)%Z then (num * 10 ^ e, den)%Z
                  else (num, den * 10 ^ (- e))%Z)
        | None => None
        end
      else
        match digit c with
        | Some d =>
            decimal_from rest (10 * num + d)%Z
              (if point then (10 * den)%Z else den) point
        | None => None
        end
  end.

(** The text of the double nearest to [num / den], which is not
    negative. *)
Definition String_of_fraction (num den : Z) : string :=
  if (num =? 0)%Z then "0"
  else String_of_nearest (num / Z.gcd num den) (den / Z.gcd num den).

(** [String(parseFloat(s))] on the strings that [toFixed] returns: "NaN",
    the infinities, or a numeral.  The numeral is read as the nearest
    double and the double written with its shortest digits, so that a
    fraction loses the zeros that end it and the digits that a double does
    not tell apart. *)
Definition parseFloat_toString (s : string) : string :=
  match s with
  | EmptyString => "NaN"
  | String c rest =>
      let negative := Ascii.eqb c "-" in
      let body := if negative then rest else s in
      if String.eqb body "Infinity" then s
      else
        match body with
        | EmptyString => "NaN"
        | _ =>
            match decimal_from body 0 1 false with
            | None => "NaN"
            | Some (num, den) =>
                let written := String_of_fraction num den in
                if negative && negb (String.eqb written "0")
                then "-" +:+ written else written
            end
        end
  end.

(** The [f] low decimal digits of [m], most significant first. *)
Fixpoint low_digits (f : nat) (m : Z) : string :=
  match f with
  | O => ""
  | S f' => low_digits f' (m / 10) +:+ pretty (m mod 10)%Z
  end.

(** ToIntegerOrInfinity of a number that is not an infinity: NaN is 0 and
    a fraction is truncated. *)
Definition truncated (x : Number) : Z :=
  match x with
  | int z => z
  | fraction n d => Z.quot n (Z.pos d)
  | _ => 0%Z
  end.

(** [x.toFixed(digits)].  The digit count goes through
    ToIntegerOrInfinity and must lie in 0..100, which is checked before
    [x] is looked at.  From 1e21 on [x] is written as [String(x)]; below,
    it is rounded to the nearest multiple of [10 ^ -f], the larger one on
    a tie, and written in fixed notation. *)
Definition toFixed (x : Quotient) (digits : Number) : Error + string :=
  let range_error :=
    mkError "RangeError"
      "toFixed() digits argument must be between 0 and 100" in
  match digits with
  | Infinity | NegInfinity => inl range_error
  | _ =>
      let f := truncated digits in
      if (f <? 0)%Z || (100 <? f)%Z then inl range_error
      else
        match x with
        | q_nan => inr "NaN"
        | q_infinity negative =>
            inr (if negative then "-Infinity" else "Infinity")
        | ratio num den =>
            let sign :=
              if (num * den <? 0)%Z then "-" else "" in
            if (10 ^ 21 * Z.abs den <=? Z.abs num)%Z then
              inr (sign +:+ String_of_fraction (Z.abs num) (Z.abs den))
            else
              let scale := (10 ^ f)%Z in
              let n := ((2 * Z.abs num * scale + Z.abs den)
                          / (2 * Z.abs den))%Z in
              let whole := pretty (n / scale)%Z in
              inr (sign +:+
                   (if (f =? 0)%Z then whole
                    else whole +:+ "." +:+
                         low_digits (Z.to_nat f) (n mod scale)))
        end
  end.

(** The digit counts that [toFixed] accepts: those that truncate to an
    integer from 0 to 100. *)
Definition accepts_digits (digits : Number) : bool :=
  match digits with
  | Infinity | NegInfinity => false
  | _ => (0 <=? truncated digits)%Z && (truncated digits <=? 100)%Z
  end.

(** [x >= n] and [x > n] for an integer [n]. *)
Definition at_least (x : Number) (n : Z) : bool :=
  match x with
  | Infinity => true
  | int z => (n <=? z)%Z
  | fraction num den => (n * Z.pos den <=? num)%Z
  | _ => false
  end.

Definition above (x : Number) (n : Z) : bool :=
  match x with
  | Infinity => true
  | int z => (n <? z)%Z
  | fraction num den => (n * Z.pos den <? num)%Z
  | _ => false
  end.

(** *** Regular expressions

    A string as the regular expression engine reads it, one UTF-16 code
    unit after the other. *)
Definition CodeUnit := N.

(** The code units of a string literal whose characters are all ASCII. *)
Definition units (s : string) : list CodeUnit :=
  List.map N_of_ascii (list_ascii_of_string s).

(** The patterns that the derivatives of the script's expression need: a
    character class is the predicate of its members. *)
Inductive Regex :=
| r_none
| r_empty
| r_class (member : CodeUnit -> bool)
| r_seq (r1 r2 : Regex)
| r_alt (r1 r2 : Regex)
| r_star (r : Regex).

(** [r+]. *)
Definition r_plus (r : Regex) : Regex := r_seq r (r_star r).

(** The strings of a pattern. *)
Inductive Matches : Regex -> list CodeUnit -> Prop :=
| m_empty : Matches r_empty []
| m_class member c : member c = true -> Matches (r_class member) [c]
| m_seq r1 r2 s1 s2 :
    Matches r1 s1 -> Matches r2 s2 -> Matches (r_seq r1 r2) (s1 ++ s2)
| m_alt_l r1 r2 s : Matches r1 s -> Matches (r_alt r1 r2) s
| m_alt_r r1 r2 s : Matches r2 s -> Matches (r_alt r1 r2) s
| m_star_nil r : Matches (r_star r) []
| m_star_app r s1 s2 :
    Matches r s1 -> Matches (r_star r) s2 -> Matches (r_star r) (s1 ++ s2).

Fixpoint nullable (r : Regex) : bool :=
  match r with
  | r_none => false
  | r_empty => true
  | r_class _ => false
  | r_seq r1 r2 => nullable r1 && nullable r2
  | r_alt r1 r2 => nullable r1 || nullable r2
  | r_star _ => true
  end.

Fixpoint derive (c : CodeUnit) (r : Regex) : Regex :=
  match r with
  | r_none => r_none
  | r_empty => r_none
  | r_class member => if member c then r_empty else r_none
  | r_seq r1 r2 =>
      if nullable r1
      then r_alt (r_seq (derive c r1) r2) (derive c r2)
      else r_seq (derive c r1) r2
  | r_alt r1 r2 => r_alt (derive c r1) (derive c r2)
  | r_star r0 => r_seq (derive c r0) (r_star r0)
  end.

(** [/^r$/.test(s)]: the whole string is one of the pattern's. *)
Fixpoint regex_test (r : Regex) (s : list CodeUnit) : bool :=
  match s with
  | [] => nullable r
  | c :: rest => regex_test (derive c r) rest
  end.

(** The class [\s]: the white space and line terminator code points of
    ECMAScript, all of one code unit. *)
Definition white_space (c : CodeUnit) : bool :=
  ((9 <=? c) && (c <=? 13) || (c =? 32) || (c =? 160) || (c =? 5760)
   || (8192 <=? c) && (c <=? 8202) || (c =? 8232) || (c =? 8233)
   || (c =? 8239) || (c =? 8287) || (c =? 12288) || (c =? 65279))%N.

(** *** Property reads and string conversion *)

(** The last field of the name, as [JSON.parse] keeps the last of two
    fields with one name. *)
Fixpoint last_field (key : string) (fields : list (string * Value))
    : option Value :=
  match fields with
  | [] => None
  | (k, v) :: rest =>
      match last_field key rest with
      | Some later => Some later
      | None => if String.eqb k key then Some v else None
      end
  end.

(** [v.key] for the keys the script reads from a parsed response,
    [success] and [message]: a missing field reads [undefined], no
    primitive or array has them, and reading from [null] or [undefined]
    throws (the text of the error is V8's). *)
Definition get_property (v : Value) (key : string) : Error + Value :=
  match v with
  | undefined =>
      inl (mkError "TypeError"
             ("Cannot read properties of undefined (reading '"
                +:+ key +:+ "')"))
  | null =>
      inl (mkError "TypeError"
             ("Cannot read properties of null (reading '"
                +:+ key +:+ "')"))
  | object fields => inr (default undefined (last_field key fields))
  | _ => inr undefined
  end.

(** [String(v)], the text of a value in a notification.  Numbers are
    written in full, as JavaScript writes integers below 1e21. *)
Fixpoint String_of_value (v : Value) : string :=
  match v with
  | undefined => "undefined"
  | null => "null"
  | boolean b => String_of_bool b
  | number z => pretty z
  | text s => s
  | object _ => "[object Object]"
  | array items =>
      let item (v : Value) : string :=
        match v with
        | undefined | null => ""
        | _ => String_of_value v
        end in
      (fix join (l : list Value) : string :=
         match l with
         | [] => ""
         | [v] => item v
         | v :: rest => item v +:+ "," +:+ join rest
         end) items
  end.

(** A string that is there and not empty, as [s || fallback] asks. *)
Definition present (s : option string) : option string :=
  match s with
  | Some s => if String.eqb s "" then None else Some s
  | None => None
  end.

End JS.

(** ** The script *)

Module App.

Import JS.
Local Open Scope string_scope.
Local Open Scope Z_scope.

(** *** Global configuration and state (lines 9-22) *)

Record AppConfig := {
  refreshInterval : Z;
  apiTimeout : Z;
  maxRetries : Z;
  debugMode : bool
}.

Definition APP_CONFIG : AppConfig := {|
  refreshInterval := 10000;
  apiTimeout := 30000;
  maxRetries := 3;
  debugMode := false
|}.

(** [Date.now() + Math.random()]: a double, kept as the integer that its
    64 bits spell.  Only equality of identifiers matters to the set. *)
Definition RequestId := Z.

Record Notification := {
  notif_id : Z;
  notif_message : string;
  notif_type : string;
  notif_timestamp : Z
}.

Record AppState := {
  isOnline : bool;
  lastUpdate : option Z;
  activeRequests : gset RequestId;
  notifications : list Notification
}.

(** [navigator.onLine] is read once, when the script is loaded. *)
Definition appState (onLine : bool) : AppState := {|
  isOnline := onLine;
  lastUpdate := None;
  activeRequests := ∅;
  notifications := []
|}.

(** *** Requests and responses *)

Definition Headers := list (string * string).

(** A request body is either the text [JSON.stringify(v)], kept as the
    value it spells, or a body the caller supplied in [options]. *)
Inductive Body :=
| JSON_stringify (v : Value)
| raw_body (s : string).

(** An [AbortSignal] that fires [abort_after] milliseconds after the
    request was issued. *)
Record AbortSignal := { abort_after : Z }.

(** The [options] argument: the members that reach the request. *)
Record Options := {
  opt_method : option string;
  opt_headers : option Headers;
  opt_timeout : option Z;
  opt_body : option Body;
  opt_signal : option AbortSignal
}.

(** [options = {}]. *)
Definition no_options : Options := {|
  opt_method := None;
  opt_headers := None;
  opt_timeout := None;
  opt_body := None;
  opt_signal := None
|}.

(** The object handed to [fetch] as its second argument. *)
Record RequestInit := {
  method : string;
  headers : Headers;
  timeout : Z;
  body : option Body;
  signal : option AbortSignal
}.

(** What [response.json()] does with the body. *)
Inductive Payload :=
| parses_to (v : Value)
| not_json (why : string)
| stalls.

Record Response := {
  status : Z;
  statusText : string;
  payload : Payload
}.

(** [response.ok]: the status is in the range 200-299. *)
Definition ok (r : Response) : bool :=
  (200 <=? status r) && (status r <=? 299).

(** How the promise returned by [fetch] ends. *)
Inductive FetchOutcome :=
| fulfilled (r : Response)
| rejected (e : Error)
| pending.

(** The network: the answer to the [n]-th [fetch] of the page, given the
    endpoint and the request. *)
Definition Network := nat -> string -> RequestInit -> FetchOutcome.

(** Everything the script can change. *)
Record Page := {
  app_config : AppConfig;
  app_state : AppState;
  localStorage : gmap string string;
  bodyClasses : gset string;
  fetched : list (string * RequestInit)
}.

Definition with_activeRequests (f : gset RequestId -> gset RequestId)
    (p : Page) : Page := {|
  app_config := app_config p;
  app_state := {|
    isOnline := isOnline (app_state p);
    lastUpdate := lastUpdate (app_state p);
    activeRequests := f (activeRequests (app_state p));
    notifications := notifications (app_state p)
  |};
  localStorage := localStorage p;
  bodyClasses := bodyClasses p;
  fetched := fetched p
|}.

Definition with_fetched (endpoint : string) (init : RequestInit)
    (p : Page) : Page := {|
  app_config := app_config p;
  app_state := app_state p;
  localStorage := localStorage p;
  bodyClasses := bodyClasses p;
  fetched := fetched p ++ [(endpoint, init)]
|}.

(** *** makeApiCall (lines 247-294) *)

(** Defaults of the parameters [method = 'GET'], [data = null]. *)
Definition default_method : string := "GET".
Definition default_data : Value := null.

Definition default_headers : Headers :=
  [("Content-Type", "application/json");
   ("X-Requested-With", "XMLHttpRequest")].

(** [options.timeout || APP_CONFIG.apiTimeout]: a missing or zero timeout
    is falsy. *)
Definition timeout_or (options : Options) (cfg : AppConfig) : Z :=
  match opt_timeout options with
  | Some t => if t =? 0 then apiTimeout cfg else t
  | None => apiTimeout cfg
  end.

(** Lines 252-264: the literal, the spread of [options] over it, then the
    body. *)
Definition config (cfg : AppConfig) (method_ : string) (data : Value)
    (options : Options) : RequestInit :=
  let literal := {|
    method := toUpperCase method_;
    headers := default_headers;
    timeout := timeout_or options cfg;
    body := None;
    signal := None
  |} in
  let spread := {|
    method := default (method literal) (opt_method options);
    headers := default (headers literal) (opt_headers options);
    timeout := default (timeout literal) (opt_timeout options);
    body := opt_body options;
    signal := opt_signal options
  |} in
  if truthy data && negb (String.eqb (toUpperCase method_) "GET") then {|
    method := method spread;
    headers := headers spread;
    timeout := timeout spread;
    body := Some (JSON_stringify data);
    signal := signal spread
  |} else spread.

(** How a call ends for its caller. *)
Inductive ApiResult :=
| returned (result : Value)
| thrown (e : Error)
| never_settles.

(** Line 271: the error thrown for a response that is not ok. *)
Definition http_error (response : Response) : Error :=
  mkError "Error"
    ("HTTP " +:+ pretty (status response) +:+ ": " +:+ statusText response).

(** Lines 268-278, after [fetch] has settled: [inl] is a throw inside the
    [try] block, [None] a promise that never settles. *)
Definition try_block (outcome : FetchOutcome) : option (Error + Value) :=
  match outcome with
  | pending => None
  | rejected e => Some (inl e)
  | fulfilled response =>
      if negb (ok response) then Some (inl (http_error response))
      else
        match payload response with
        | parses_to result => Some (inr result)
        | not_json why => Some (inl (mkError "SyntaxError" why))
        | stalls => None
        end
  end.

(** Lines 284-290: the three branches of the [catch] block. *)
Inductive CatchBranch :=
| server_unreachable
| request_interrupted
| rethrown.

Definition catch_branch (error : Error) : CatchBranch :=
  if String.eqb (name error) "TypeError" && includes (message error) "fetch"
  then server_unreachable
  else if String.eqb (name error) "AbortError" then request_interrupted
  else rethrown.

(** Lines 280-290: the error that the [catch] block throws. *)
Definition catch_block (error : Error) : Error :=
  match catch_branch error with
  | server_unreachable => mkError "Error" "Impossible de contacter le serveur"
  | request_interrupted => mkError "Error" "Requête interrompue (timeout)"
  | rethrown => error
  end.

(** Line 249 and line 292. *)
Definition enter (requestId : RequestId) : Page -> Page :=
  with_activeRequests (fun s => {[requestId]} ∪ s).

Definition finally (requestId : RequestId) : Page -> Page :=
  with_activeRequests (fun s => s ∖ {[requestId]}).

Definition makeApiCall (net : Network) (requestId : RequestId)
    (endpoint method_ : string) (data : Value) (options : Options)
    (p : Page) : Page * ApiResult :=
  let p1 := enter requestId p in
  let init := config (app_config p1) method_ data options in
  let p2 := with_fetched endpoint init p1 in
  match try_block (net (length (fetched p1)) endpoint init) with
  | None => (p2, never_settles)
  | Some (inr result) => (finally requestId p2, returned result)
  | Some (inl error) => (finally requestId p2, thrown (catch_block error))
  end.

(** *** The browser's fetch

    [fetch] reads [method], [headers], [body] and [signal] from its
    second argument.  It has no [timeout] member: the value the script
    passes there is ignored, and only a [signal] cancels a request. *)

Inductive ServerBehaviour :=
| responds (delay : Z) (r : Response)
| unreachable
| silent.

Definition AbortError : Error :=
  mkError "AbortError" "The operation was aborted.".

Definition browser_fetch (server : string -> ServerBehaviour) : Network :=
  fun _ endpoint init =>
    match server endpoint, signal init with
    | unreachable, _ => rejected (mkError "TypeError" "Failed to fetch")
    | responds delay r, Some s =>
        if abort_after s <? delay then rejected AbortError else fulfilled r
    | responds _ r, None => fulfilled r
    | silent, Some _ => rejected AbortError
    | silent, None => pending
    end.

(** *** formatBytes (lines 497-507) *)

(** The default of the parameter [decimals = 2]. *)
Definition default_decimals : Number := int 2.

(** The function on an engine: [log_ratio x k] is what the engine
    computes for [Math.log(x) / Math.log(k)], the one step of the function
    that ECMAScript leaves to the precision of the implementation. *)
Definition formatBytes_on (log_ratio : Number -> Z -> Number)
    (bytes decimals : Number) : Error + string :=
  if is_zero bytes then inr "0 B"
  else
    let k := 1024 in
    let dm := if is_negative decimals then int 0 else decimals in
    let sizes := ["B"; "KB"; "MB"; "GB"; "TB"] in
    let i := Math_floor (log_ratio bytes k) in
    match toFixed (div_pow bytes k i) dm with
    | inl range_error => inl range_error
    | inr fixed =>
        inr (parseFloat_toString fixed +:+ " "
               +:+ String_of_element (element sizes i))
    end.

(** The function with logarithms that do not round: the index is the
    exact one. *)
Definition formatBytes : Number -> Number -> Error + string :=
  formatBytes_on Math_floor_log_ratio.

(** *** setDebugMode (lines 632-643) and the load of the script *)

Definition setDebugMode (enabled : bool) (p : Page) : Page := {|
  app_config := {|
    refreshInterval := refreshInterval (app_config p);
    apiTimeout := apiTimeout (app_config p);
    maxRetries := maxRetries (app_config p);
    debugMode := enabled
  |};
  app_state := app_state p;
  localStorage := <["debugMode" := String_of_bool enabled]> (localStorage p);
  bodyClasses :=
    if enabled then {["debug-mode"]} ∪ bodyClasses p
    else bodyClasses p ∖ {["debug-mode"]};
  fetched := fetched p
|}.

(** The statements at the top level of the script: the two globals
    (lines 9-22), then lines 646-648.  The storage is what the browser
    kept for the origin, the classes are those of the document's body,
    which is taken to exist when the script runs. *)
Definition load_script (onLine : bool) (storage : gmap string string)
    (classes : gset string) : Page :=
  let p := {|
    app_config := APP_CONFIG;
    app_state := appState onLine;
    localStorage := storage;
    bodyClasses := classes;
    fetched := []
  |} in
  if decide (storage !! "debugMode" = Some "true") then setDebugMode true p
  else p.

(** *** Sequences of calls *)

Record Call := {
  call_id : RequestId;
  call_endpoint : string;
  call_method : string;
  call_data : Value;
  call_options : Options
}.

Definition call (net : Network) (c : Call) (p : Page) : Page * ApiResult :=
  makeApiCall net (call_id c) (call_endpoint c) (call_method c)
    (call_data c) (call_options c) p.

(** Calls made one after the other, each awaited before the next. *)
Fixpoint run_calls (net : Network) (calls : list Call) (p : Page)
    : Page * list ApiResult :=
  match calls with
  | [] => (p, [])
  | c :: rest =>
      let '(p1, r) := call net c p in
      let '(p2, rs) := run_calls net rest p1 in
      (p2, r :: rs)
  end.

Definition settled (r : ApiResult) : bool :=
  match r with
  | never_settles => false
  | _ => true
  end.

(** Calls that overlap: a call touches the set of active requests when
    it begins (line 249) and when its [finally] block runs (line 292);
    between the two, other calls may begin or end. *)
Inductive Moment :=
| begins (requestId : RequestId)
| ends (requestId : RequestId).

Definition moment (p : Page) (m : Moment) : Page :=
  match m with
  | begins requestId => enter requestId p
  | ends requestId => finally requestId p
  end.

Definition interleaving (moments : list Moment) (p : Page) : Page :=
  List.fold_left moment moments p.

(** The number of [fetch] calls a call added to the page. *)
Definition attempts (before after : Page) : nat :=
  (length (fetched after) - length (fetched before))%nat.

Definition with_timeout (t : option Z) (options : Options) : Options := {|
  opt_method := opt_method options;
  opt_headers := opt_headers options;
  opt_timeout := t;
  opt_body := opt_body options;
  opt_signal := opt_signal options
|}.

Definition with_maxRetries (n : Z) (p : Page) : Page := {|
  app_config := {|
    refreshInterval := refreshInterval (app_config p);
    apiTimeout := apiTimeout (app_config p);
    maxRetries := n;
    debugMode := debugMode (app_config p)
  |};
  app_state := app_state p;
  localStorage := localStorage p;
  bodyClasses := bodyClasses p;
  fetched := fetched p
|}.

(** *** isValidEmail (lines 584-587) *)

Definition at_sign : CodeUnit := 64%N.
Definition full_stop : CodeUnit := 46%N.

(** The class [[^\s@]]. *)
Definition not_space_at (c : CodeUnit) : bool :=
  negb (white_space c) && negb (c =? at_sign)%N.

(** [/^[^\s@]+@[^\s@]+\.[^\s@]+$/]. *)
Definition email_pattern : Regex :=
  r_seq (r_plus (r_class not_space_at))
    (r_seq (r_class (N.eqb at_sign))
       (r_seq (r_plus (r_class not_space_at))
          (r_seq (r_class (N.eqb full_stop))
             (r_plus (r_class not_space_at))))).

Definition isValidEmail (email : list CodeUnit) : bool :=
  regex_test email_pattern email.

(** *** formatTime (lines 468-492) *)

(** What the function returns: a text it builds itself, or the text that
    [toLocaleString] gives for the date in the French locale, kept as the
    date it prints. *)
Inductive TimeText :=
| literally (s : string)
| toLocaleString (date : option Z).

(** [date] is the time value of the date, in milliseconds, [None] for an
    invalid date; [now] is the clock read by [new Date()].  The difference
    with an invalid date is NaN, which is below nothing. *)
Definition formatTime (now : Z) (date : option Z) : TimeText :=
  match date with
  | None => toLocaleString date
  | Some d =>
      let diff := now - d in
      if diff <? 60000 then literally "À l'instant"
      else if diff <? 3600000 then
        let minutes := diff / 60000 in
        literally ("Il y a " +:+ pretty minutes +:+ " min")
      else if diff <? 86400000 then
        let hours := diff / 3600000 in
        literally ("Il y a " +:+ pretty hours +:+ "h")
      else toLocaleString date
  end.

(** *** throttle (lines 529-538)

    The closure returned by [throttle(func, limit)], as a machine: its
    variable [inThrottle], the timers it has set that have not fired yet,
    and, to observe it, the arguments [func] was called with and the
    number of timers that fired.  [func] is a black box that returns or
    throws. *)
Record Throttled (A : Type) := {
  inThrottle : bool;
  throttle_timers : nat;
  throttle_fired : nat;
  throttle_calls : list A
}.
Arguments inThrottle {A}.
Arguments throttle_timers {A}.
Arguments throttle_fired {A}.
Arguments throttle_calls {A}.

(** [inThrottle] starts undefined, which is falsy. *)
Definition throttle {A : Type} : Throttled A := {|
  inThrottle := false;
  throttle_timers := 0;
  throttle_fired := 0;
  throttle_calls := []
|}.

(** What happens to a closure made by [throttle] or [debounce]: it is
    called, or one of its timers fires. *)
Inductive Tick (A : Type) :=
| invoked (args : A)
| timer_fired.
Arguments invoked {A}.
Arguments timer_fired {A}.

(** A call of the closure; when [func] throws, the two statements after
    it do not run.  A timer fires only if one is set. *)
Definition throttle_step {A : Type} (throws : A -> bool) (t : Throttled A)
    (tick : Tick A) : Throttled A :=
  match tick with
  | invoked args =>
      if inThrottle t then t
      else if throws args then {|
        inThrottle := inThrottle t;
        throttle_timers := throttle_timers t;
        throttle_fired := throttle_fired t;
        throttle_calls := throttle_calls t ++ [args]
      |} else {|
        inThrottle := true;
        throttle_timers := S (throttle_timers t);
        throttle_fired := throttle_fired t;
        throttle_calls := throttle_calls t ++ [args]
      |}
  | timer_fired =>
      match throttle_timers t with
      | O => t
      | S timers => {|
          inThrottle := false;
          throttle_timers := timers;
          throttle_fired := S (throttle_fired t);
          throttle_calls := throttle_calls t
        |}
      end
  end.

Definition throttle_run {A : Type} (throws : A -> bool) (ticks : list (Tick A))
    (t : Throttled A) : Throttled A :=
  List.fold_left (throttle_step throws) ticks t.

(** *** debounce (lines 512-524)

    The closure returned by [debounce(func, wait, immediate)]: its variable
    [timeout], which holds the pending timer with the arguments that its
    callback [later] captured, and the arguments [func] was called with. *)
Record Debounced (A : Type) := {
  debounce_timeout : option A;
  debounce_calls : list A
}.
Arguments debounce_timeout {A}.
Arguments debounce_calls {A}.

Definition debounce {A : Type} : Debounced A := {|
  debounce_timeout := None;
  debounce_calls := []
|}.

(** A call clears the pending timer and sets a new one; [func] runs at
    once only for [immediate] when no timer was pending.  When the timer
    fires, [later] resets [timeout] and runs [func] unless [immediate]. *)
Definition debounce_step {A : Type} (immediate : bool) (d : Debounced A)
    (tick : Tick A) : Debounced A :=
  match tick with
  | invoked args =>
      let callNow :=
        immediate && match debounce_timeout d with
                     | None => true
                     | Some _ => false
                     end in
      {|
        debounce_timeout := Some args;
        debounce_calls :=
          if callNow then debounce_calls d ++ [args] else debounce_calls d
      |}
  | timer_fired =>
      match debounce_timeout d with
      | None => d
      | Some args => {|
          debounce_timeout := None;
          debounce_calls :=
            if immediate then debounce_calls d else debounce_calls d ++ [args]
        |}
      end
  end.

Definition debounce_run {A : Type} (immediate : bool) (ticks : list (Tick A))
    (d : Debounced A) : Debounced A :=
  List.fold_left (debounce_step immediate) ticks d.

(** *** showNotification (lines 299-333), in [appState]

    The function also builds a toast in the document; the page keeps what
    it does to [appState.notifications].  [now] and [stamp] are the two
    readings of the clock, [Date.now()] and [new Date()]. *)
Definition with_notifications
    (f : list Notification -> list Notification) (p : Page) : Page := {|
  app_config := app_config p;
  app_state := {|
    isOnline := isOnline (app_state p);
    lastUpdate := lastUpdate (app_state p);
    activeRequests := activeRequests (app_state p);
    notifications := f (notifications (app_state p))
  |};
  localStorage := localStorage p;
  bodyClasses := bodyClasses p;
  fetched := fetched p
|}.

Definition showNotification (now stamp : Z) (message type : string)
    (p : Page) : Page * Z :=
  let notification := {|
    notif_id := now;
    notif_message := message;
    notif_type := type;
    notif_timestamp := stamp
  |} in
  (with_notifications (fun l => (l ++ [notification])%list) p,
   notif_id notification).

(** The default of the parameter [type = 'info']. *)
Definition default_type : string := "info".

(** [findIndex] then [splice(index, 1)]: the first notification with the
    identifier goes, if there is one. *)
Fixpoint remove_first (id : Z) (l : list Notification) : list Notification :=
  match l with
  | [] => []
  | n :: rest => if notif_id n =? id then rest else n :: remove_first id rest
  end.

(** Lines 324-330: the handler of [hidden.bs.toast] for the notification
    with identifier [id]. *)
Definition toast_hidden (id : Z) : Page -> Page :=
  with_notifications (remove_first id).

(** *** checkConnectivity (lines 97-120) *)

Definition with_isOnline (b : bool) (p : Page) : Page := {|
  app_config := app_config p;
  app_state := {|
    isOnline := b;
    lastUpdate := lastUpdate (app_state p);
    activeRequests := activeRequests (app_state p);
    notifications := notifications (app_state p)
  |};
  localStorage := localStorage p;
  bodyClasses := bodyClasses p;
  fetched := fetched p
|}.

(** The second argument of the [fetch] of line 99. *)
Definition status_request : RequestInit := {|
  method := "GET";
  headers := [];
  timeout := 5000;
  body := None;
  signal := None
|}.

(** Lines 104-111 and 112-117: the server answered with an ok status, or
    the [catch] block ran. *)
Definition server_reached (now stamp : Z) (p : Page) : Page :=
  if isOnline (app_state p) then p
  else (showNotification now stamp "Connexion au serveur rétablie" "success"
          (with_isOnline true p)).1.

Definition server_lost (now stamp : Z) (p : Page) : Page :=
  if isOnline (app_state p)
  then (showNotification now stamp "Problème de connexion serveur" "warning"
          (with_isOnline false p)).1
  else p.

(** [None] when the [fetch] never settles.  The indicators that
    [updateConnectivityStatus] redraws are in the document, not in the
    page. *)
Definition checkConnectivity (net : Network) (now stamp : Z) (p : Page)
    : option Page :=
  let p1 := with_fetched "/api/status" status_request p in
  match net (length (fetched p)) "/api/status" status_request with
  | pending => None
  | rejected _ => Some (server_lost now stamp p1)
  | fulfilled response =>
      if ok response then Some (server_reached now stamp p1)
      else Some (server_lost now stamp p1)
  end.

(** *** handleApiAction (lines 163-204)

    The element that was clicked: the two properties the function writes
    and the [data-] attributes it uses ([data-api-action] is read into a
    constant that nothing uses).  The toasts of [showNotification] are in
    the document, as for the other callers. *)
Record Element := {
  disabled : bool;
  innerHTML : string;
  data_apiMethod : option string;
  data_apiEndpoint : option string;
  data_loadingText : option string;
  data_successCallback : option string
}.

Definition with_button (is_disabled : bool) (content : string)
    (element : Element) : Element := {|
  disabled := is_disabled;
  innerHTML := content;
  data_apiMethod := data_apiMethod element;
  data_apiEndpoint := data_apiEndpoint element;
  data_loadingText := data_loadingText element;
  data_successCallback := data_successCallback element
|}.

(** A function found in [window]: given the result, it changes the page
    and returns, or throws an error. *)
Definition Callback := Value -> Page -> Page * option Error.

(** [window[name]] when it is a function. *)
Definition Window := string -> option Callback.

(** [result.message || fallback]. *)
Definition message_or (result : Value) (fallback : string) : string :=
  match get_property result "message" with
  | inr m => if truthy m then String_of_value m else fallback
  | inl _ => fallback
  end.

(** Lines 197-199: the [catch] block. *)
Definition notify_error (clock : Z * Z) (error : Error) (p : Page) : Page :=
  (showNotification clock.1 clock.2 ("Erreur: " +:+ message error) "error"
     p).1.

(** How the handler stands: it has finished, or it waits for a call that
    never settles. *)
Inductive Handled :=
| finished (p : Page) (element : Element)
| waiting (p : Page) (element : Element).

(** [first] and [second] are the readings of the clock for the
    notification of the [try] block and for that of the [catch] block. *)
Definition handleApiAction (net : Network) (window : Window)
    (requestId : RequestId) (first second : Z * Z) (element : Element)
    (p : Page) : Handled :=
  match present (data_apiEndpoint element) with
  | None => finished p element
  | Some endpoint =>
      let method_ := default "POST" (present (data_apiMethod element)) in
      let originalContent := innerHTML element in
      let busy :=
        with_button true
          (default originalContent (present (data_loadingText element)))
          element in
      let restored := with_button false originalContent element in
      let '(p1, outcome) :=
        makeApiCall net requestId endpoint method_ default_data no_options p in
      match outcome with
      | never_settles => waiting p1 busy
      | thrown error => finished (notify_error second error p1) restored
      | returned result =>
          match get_property result "success" with
          | inl error => finished (notify_error second error p1) restored
          | inr success =>
              if truthy success then
                let p2 :=
                  (showNotification first.1 first.2
                     (message_or result "Opération réussie") "success" p1).1 in
                match present (data_successCallback element) with
                | None => finished p2 restored
                | Some name =>
                    match window name with
                    | None => finished p2 restored
                    | Some callback =>
                        match callback result p2 with
                        | (p3, None) => finished p3 restored
                        | (p3, Some error) =>
                            finished (notify_error second error p3) restored
                        end
                    end
                end
              else
                finished
                  (showNotification first.1 first.2
                     (message_or result "Opération échouée") "error" p1).1
                  restored
          end
      end
  end.

(** The call succeeded for the handlers: a result came back and its
    [success] is truthy. *)
Definition succeeded (outcome : ApiResult) : bool :=
  match outcome with
  | returned result =>
      match get_property result "success" with
      | inr success => truthy success
      | inl _ => false
      end
  | _ => false
  end.

End App.

(** ** The collection pipeline of the specification

    The report assembler, the delivery queue with its sender, and the
    scheduler belong to the agent's core ([agent/core/collector.py],
    [sender.py], [scheduler.py] in the repository's layout), which is not
    among the sources.  The definitions below follow the specification's
    sections 3 to 5. *)

Module Pipeline.

Local Open Scope Z_scope.

(** *** Data model (section 3) *)

(** Modelled from the spec: the fact domains of the absent probes. *)
Inductive Domain := system | hardware | software | network.

(** Modelled from the spec: the typed failures an absent probe returns. *)
Inductive ProbeFailure :=
| PermissionDenied
| UnsupportedPlatform
| Timeout
| Unknown.

(** Modelled from the spec: the Probe Result, the value a probe of the
    absent collectors returns. *)
Record ProbeResult := {
  domain : Domain;
  facts : list (string * string);
  probe_collected_at : Z;
  error : option ProbeFailure
}.

(** Modelled from the spec: the completeness mark of a Report, missing
    with the assembler. *)
Inductive Completeness := full | partial.

(** Modelled from the spec: the host identity of a Report, missing with
    the assembler. *)
Record HostIdentity := { hostname : string; machine_uuid : string }.

(** Modelled from the spec: the unique identifier of a Report, missing
    with the assembler. *)
Definition ReportId := Z.

(** Modelled from the spec: the Report built by the absent assembler. *)
Record Report := {
  report_id : ReportId;
  host_identity : HostIdentity;
  agent_version : string;
  collected_at : Z;
  probe_results : list ProbeResult;
  completeness : Completeness
}.

(** Modelled from the spec: the reasons of a failed send, missing with
    the sender. *)
Inductive Reason :=
| NetworkUnreachable
| RequestTimeout
| ServerError (status : Z)
| AuthRejected (status : Z)
| MalformedRequest (status : Z).

(** Modelled from the spec: the outcome of the absent sender's [send]. *)
Inductive Outcome :=
| Delivered
| RetryableFailure (reason : Reason)
| TerminalFailure (reason : Reason).

(** Modelled from the spec: the Delivery Queue Entry. *)
Record Entry := {
  report : Report;
  attempt_count : Z;
  next_eligible_at : Z;
  last_error : option Reason
}.

(** Modelled from the spec: the report identifier of an entry of the
    absent queue. *)
Definition entry_id (e : Entry) : ReportId := report_id (report e).

(** *** Delivery queue (section 4.3) *)

(** Modelled from the spec: the store of the absent delivery queue, the
    pending entries in the order of their enqueueing and the dead
    letters kept for the operator. *)
Record Queue := {
  entries : list Entry;
  dead_letters : list Entry
}.

(** Modelled from the spec: the absent queue before any report. *)
Definition empty_queue : Queue := {| entries := []; dead_letters := [] |}.

(** Modelled from the spec: the retry settings of the configuration (max
    retry count, backoff bounds), which the absent sender and queue read. *)
Record RetryPolicy := {
  max_retries : Z;
  base_backoff : Z;
  max_backoff : Z
}.

(** Modelled from the spec: [enqueue(report)] of the absent queue; the
    new entry is eligible at once. *)
Definition enqueue (now : Z) (r : Report) (q : Queue) : Queue := {|
  entries := entries q ++ [{|
    report := r;
    attempt_count := 0;
    next_eligible_at := now;
    last_error := None
  |}];
  dead_letters := dead_letters q
|}.

(** Modelled from the spec: an entry of the absent queue is ready when
    its [next_eligible_at] has elapsed. *)
Definition eligible (now : Z) (e : Entry) : bool :=
  next_eligible_at e <=? now.

(** Modelled from the spec: [peek_ready()], first in, first out, with
    entries that are not yet eligible skipped. *)
Definition peek_ready (now : Z) (q : Queue) : option Entry :=
  List.find (eligible now) (entries q).

(** Modelled from the spec: the entry of the absent queue that a report
    identifier names. *)
Definition has_id (id : ReportId) (e : Entry) : bool :=
  entry_id e =? id.

(** Modelled from the spec: [ack(report_id)], which removes the entry. *)
Definition ack (id : ReportId) (q : Queue) : Queue := {|
  entries := List.filter (fun e => negb (has_id id e)) (entries q);
  dead_letters := dead_letters q
|}.

(** Modelled from the spec: [dead_letter(report_id)]. *)
Definition dead_letter (id : ReportId) (q : Queue) : Queue := {|
  entries := List.filter (fun e => negb (has_id id e)) (entries q);
  dead_letters := dead_letters q ++ List.filter (has_id id) (entries q)
|}.

(** Modelled from the spec: the backoff interval of the absent queue,
    exponential with jitter, capped at a maximum interval. *)
Definition backoff (policy : RetryPolicy) (attempt jitter : Z) : Z :=
  Z.min (max_backoff policy)
        (base_backoff policy * 2 ^ (attempt - 1) + jitter).

(** Modelled from the spec: the entry of the absent queue after one
    more failed attempt. *)
Definition retried (policy : RetryPolicy) (why : Reason) (now jitter : Z)
    (e : Entry) : Entry := {|
  report := report e;
  attempt_count := attempt_count e + 1;
  next_eligible_at :=
    now + backoff policy (attempt_count e + 1) jitter;
  last_error := Some why
|}.

(** Modelled from the spec: the attempt count of an entry of the absent
    queue exceeds the configured maximum. *)
Definition exhausted (policy : RetryPolicy) (e : Entry) : bool :=
  max_retries policy <? attempt_count e.

(** Modelled from the spec: [requeue(report_id, error)]: the attempt is
    counted, the next eligibility computed, and an entry whose count
    exceeds the maximum goes to the dead letters. *)
Definition requeue (policy : RetryPolicy) (id : ReportId) (why : Reason)
    (now jitter : Z) (q : Queue) : Queue :=
  let bump e := if has_id id e then retried policy why now jitter e else e in
  let bumped := List.map bump (entries q) in
  {|
    entries :=
      List.filter (fun e => negb (has_id id e && exhausted policy e)) bumped;
    dead_letters :=
      dead_letters q ++
      List.filter (fun e => has_id id e && exhausted policy e) bumped
  |}.

(** *** Sender (section 4.4) *)







(** Modelled from the spec: the entry of the absent queue after an
    attempt that failed for good: the attempt is counted and the failure
    kept (section 8: after a terminal failure at the first attempt the
    count is 1), and no new eligibility is computed, for nothing is
    retried. *)
Definition refused (why : Reason) (e : Entry) : Entry := {|
  report := report e;
  attempt_count := attempt_count e + 1;
  next_eligible_at := next_eligible_at e;
  last_error := Some why
|}.

(** Modelled from the spec: the absent sender notes a terminal failure on
    the entry of the report before it dead-letters it. *)
Definition refuse (id : ReportId) (why : Reason) (q : Queue) : Queue := {|
  entries :=
    List.map (fun e => if has_id id e then refused why e else e) (entries q);
  dead_letters := dead_letters q
|}.

(** Modelled from the spec: one turn of the absent sender's loop, at time
    [turn_now]: what became of the attempt, and the jitter drawn for a
    retry. *)
Record Turn := {
  turn_now : Z;
  turn_outcome : Outcome;
  turn_jitter : Z
}.

(** Modelled from the spec: one pass of the absent sender over the queue.
    It returns the queue and the attempt it made, if any entry was ready. *)
Definition sender_step (policy : RetryPolicy) (t : Turn) (q : Queue)
    : Queue * option (ReportId * Outcome) :=
  match peek_ready (turn_now t) q with
  | None => (q, None)
  | Some e =>
      let id := entry_id e in
      let q' :=
        match turn_outcome t with
        | Delivered => ack id q
        | RetryableFailure why =>
            requeue policy id why (turn_now t) (turn_jitter t) q
        | TerminalFailure why => dead_letter id (refuse id why q)
        end in
      (q', Some (id, turn_outcome t))
  end.

(** Modelled from the spec: the loop of the absent sender over a sequence
    of turns, with the attempts it made. *)
Fixpoint drain (policy : RetryPolicy) (turns : list Turn) (q : Queue)
    : Queue * list (ReportId * Outcome) :=
  match turns with
  | [] => (q, [])
  | t :: rest =>
      let '(q1, attempt) := sender_step policy t q in
      let '(q2, attempts) := drain policy rest q1 in
      (q2, match attempt with
           | Some a => a :: attempts
           | None => attempts
           end)
  end.

(** Modelled from the spec: the attempts that the absent sender made on
    a report, counted in the log of its loop. *)
Definition attempts_on (id : ReportId) (log : list (ReportId * Outcome))
    : nat :=
  length (List.filter (fun a => a.1 =? id) log).

(** *** Report assembler (section 4.2) *)

(** Modelled from the spec: the context handed to the absent probes. *)
Record Context := { ctx_now : Z; probe_timeout : Z }.

(** Modelled from the spec: a probe of the absent collectors, a black box
    that always returns a result; a failure is a value inside it. *)
Definition Probe := Context -> ProbeResult.

(** Modelled from the spec: a result of an absent probe carries a
    failure. *)
Definition failed (r : ProbeResult) : bool :=
  match error r with
  | Some _ => true
  | None => false
  end.

(** Modelled from the spec: [assemble(enabled_domains)] of the absent
    assembler, given the identity of the host. *)
Definition assemble (ctx : Context) (id : ReportId) (host : HostIdentity)
    (version : string) (enabled : list Probe) : Report :=
  let results := List.map (fun probe => probe ctx) enabled in
  {|
    report_id := id;
    host_identity := host;
    agent_version := version;
    collected_at := ctx_now ctx;
    probe_results := results;
    completeness := if List.existsb failed results then partial else full
  |}.

(** Modelled from the spec: how a cycle of the absent orchestrator
    ends. *)
Inductive CycleResult :=
| produced (r : Report)
| AssemblyFailure.

(** Modelled from the spec: one collection cycle of the absent
    orchestrator: assemble, then enqueue.  Only a missing host identity
    is fatal to the cycle. *)
Definition collection_cycle (ctx : Context) (id : ReportId)
    (host : option HostIdentity) (version : string)
    (enabled : list Probe) (q : Queue) : CycleResult * Queue :=
  match host with
  | None => (AssemblyFailure, q)
  | Some h =>
      let r := assemble ctx id h version enabled in
      (produced r, enqueue (ctx_now ctx) r q)
  end.

(** *** Scheduler (section 4.5) *)

(** Modelled from the spec: the cadence of the absent scheduler. *)
Inductive Cadence := interval (every : Z) | calendar (spec : string).

(** Modelled from the spec: the policy of the absent scheduler for a
    trigger that arrives during a cycle. *)
Inductive Coalescing := drop_it | run_after.

(** Modelled from the spec: the Schedule State of the absent scheduler.
    [running_cycles] counts the collection cycles in progress; the
    scheduler itself decides on [in_progress] alone. *)
Record ScheduleState := {
  cadence : Cadence;
  last_attempt_at : option Z;
  last_success_at : option Z;
  in_progress : bool;
  trigger_recorded : bool;
  running_cycles : nat
}.

(** Modelled from the spec: the absent scheduler at start, Idle. *)
Definition initial_schedule (c : Cadence) : ScheduleState := {|
  cadence := c;
  last_attempt_at := None;
  last_success_at := None;
  in_progress := false;
  trigger_recorded := false;
  running_cycles := 0
|}.

(** Modelled from the spec: what the absent scheduler reacts to. *)
Inductive Event :=
| timer_elapsed
| manual_trigger
| cycle_finished (now : Z) (success : bool).

(** Modelled from the spec: a trigger reaches the absent scheduler: Idle
    starts a cycle, Running records the trigger. *)
Definition on_trigger (s : ScheduleState) : ScheduleState :=
  if in_progress s then {|
    cadence := cadence s;
    last_attempt_at := last_attempt_at s;
    last_success_at := last_success_at s;
    in_progress := true;
    trigger_recorded := true;
    running_cycles := running_cycles s
  |} else {|
    cadence := cadence s;
    last_attempt_at := last_attempt_at s;
    last_success_at := last_success_at s;
    in_progress := true;
    trigger_recorded := false;
    running_cycles := S (running_cycles s)
  |}.

(** Modelled from the spec: the running cycle of the absent scheduler
    ends: back to Idle, or straight into the next cycle when a recorded
    trigger is to be honoured. *)
Definition on_finished (policy : Coalescing) (now : Z) (success : bool)
    (s : ScheduleState) : ScheduleState :=
  if in_progress s then
    let again :=
      match policy with
      | run_after => trigger_recorded s
      | drop_it => false
      end in
    {|
      cadence := cadence s;
      last_attempt_at := Some now;
      last_success_at := if success then Some now else last_success_at s;
      in_progress := again;
      trigger_recorded := false;
      running_cycles :=
        if again then S (Nat.pred (running_cycles s))
        else Nat.pred (running_cycles s)
    |}
  else s.

(** Modelled from the spec: the transition function of the absent
    scheduler, each event handled inside its critical section. *)
Definition schedule_step (policy : Coalescing) (s : ScheduleState)
    (ev : Event) : ScheduleState :=
  match ev with
  | timer_elapsed | manual_trigger => on_trigger s
  | cycle_finished now success => on_finished policy now success s
  end.

(** Modelled from the spec: the absent scheduler over a sequence of
    events. *)
Definition schedule_run (policy : Coalescing) (events : list Event)
    (s : ScheduleState) : ScheduleState :=
  List.fold_left (schedule_step policy) events s.

End Pipeline.

(** ** The specification's wire contract, read on [makeApiCall]

    What the specification says of the request of a send, in its own
    words, to be compared with what [makeApiCall] does. *)

Module Claimed.

Import JS App.
Local Open Scope string_scope.
Local Open Scope Z_scope.

(** The wire contract of the specification for the request that carries
    [report]. *)
Definition wire_contract (report : Value) (init : RequestInit) : Prop :=
  method init = "POST" /\
  body init = Some (JSON_stringify report) /\
  In ("Content-Type", "application/json") (headers init) /\
  exists credentials, In ("Authorization", credentials) (headers init).

(** Success is any 2xx, whatever the body. *)
Definition success_is_2xx (r : Response) (result : ApiResult) : Prop :=
  (exists v, result = returned v) <-> ok r = true.

End Claimed.

(** ** Sample pages, servers and reports *)

Module Scenario.

Import JS App.
Local Open Scope string_scope.
Local Open Scope Z_scope.

(** The page just after the script was loaded, with an empty storage. *)
Definition fresh_page : Page := load_script true ∅ ∅.

Definition inventory : Value :=
  object [("hostname", text "PC-BUREAU-01");
          ("agent_version", text "1.0.0")].

Definition accepted : Response := {|
  status := 200;
  statusText := "OK";
  payload := parses_to (object [("success", boolean true)])
|}.

Definition no_content : Response := {|
  status := 204;
  statusText := "No Content";
  payload := not_json "Unexpected end of JSON input"
|}.

Definition unavailable : Response := {|
  status := 503;
  statusText := "Service Unavailable";
  payload := not_json "Unexpected token < in JSON at position 0"
|}.


Definition failed_to_fetch : Error :=
  mkError "TypeError" "Failed to fetch".

(** A network that is down for the first request and up afterwards. *)
Definition down_then_up : Network :=
  fun n _ _ =>
    match n with
    | O => rejected failed_to_fetch
    | S _ => fulfilled accepted
    end.

Definition always (r : Response) : Network := fun _ _ _ => fulfilled r.

Definition silent_server : string -> ServerBehaviour := fun _ => silent.

(** A server that answers after a minute. *)
Definition slow_server : string -> ServerBehaviour :=
  fun _ => responds 60000 accepted.

Definition status_call (id : RequestId) : Call := {|
  call_id := id;
  call_endpoint := "/api/status";
  call_method := default_method;
  call_data := default_data;
  call_options := no_options
|}.

Definition send_call (id : RequestId) : Call := {|
  call_id := id;
  call_endpoint := "/api/send";
  call_method := "post";
  call_data := inventory;
  call_options := no_options
|}.

(** A button that the click handler of line 142 passes to
    [handleApiAction]:
    [<button data-api-action="restart"
       data-api-endpoint="/api/service/restart"
       data-loading-text="Redémarrage...">Redémarrer</button>]. *)
Definition restart_button : Element := {|
  disabled := false;
  innerHTML := "Redémarrer";
  data_apiMethod := None;
  data_apiEndpoint := Some "/api/service/restart";
  data_loadingText := Some "Redémarrage...";
  data_successCallback := None
|}.

(** The retry settings of the scenarios of section 8 of the spec: three
    retries, the count that [APP_CONFIG] holds, a base backoff of one
    second and a cap of eight. *)
Definition retry_policy : Pipeline.RetryPolicy := {|
  Pipeline.max_retries := maxRetries APP_CONFIG;
  Pipeline.base_backoff := 1000;
  Pipeline.max_backoff := 8000
|}.

Definition a_report : Pipeline.Report := {|
  Pipeline.report_id := 1;
  Pipeline.host_identity := {|
    Pipeline.hostname := "PC-BUREAU-01";
    Pipeline.machine_uuid := "4c4c4544-0042-3510-8054-b7c04f4a3432"
  |};
  Pipeline.agent_version := "1.0.0";
  Pipeline.collected_at := 0;
  Pipeline.probe_results := [];
  Pipeline.completeness := Pipeline.full
|}.

(** The report just enqueued, and the queue that holds it alone. *)
Definition fresh_entry : Pipeline.Entry := {|
  Pipeline.report := a_report;
  Pipeline.attempt_count := 0;
  Pipeline.next_eligible_at := 0;
  Pipeline.last_error := None
|}.

Definition one_pending : Pipeline.Queue :=
  Pipeline.enqueue 0 a_report Pipeline.empty_queue.

(** A pass of the sender while the network is down, and one that meets
    an invalid token. *)
Definition network_down (now : Z) : Pipeline.Turn := {|
  Pipeline.turn_now := now;
  Pipeline.turn_outcome :=
    Pipeline.RetryableFailure Pipeline.NetworkUnreachable;
  Pipeline.turn_jitter := 0
|}.


(** Five passes of the sender during a network outage, each at the time
    the entry is eligible again, the last one well after. *)
Definition network_outage : list Pipeline.Turn :=
  [network_down 0; network_down 1000; network_down 3000; network_down 7000;
   network_down 20000].

End Scenario.

(** * Properties of the script *)

Section MakeApiCall.

Import JS App.

Variable net : Network.

Lemma makeApiCall_fetched rid endpoint m data options p :
  fetched (makeApiCall net rid endpoint m data options p).1 =
  fetched p ++ [(endpoint, config (app_config p) m data options)].
Proof.
  unfold makeApiCall.
  destruct (try_block _) as [[e | v] |]; reflexivity.
Qed.

Lemma makeApiCall_result rid endpoint m data options p :
  (makeApiCall net rid endpoint m data options p).2 =
  match try_block (net (length (fetched p)) endpoint
                     (config (app_config p) m data options)) with
  | None => never_settles
  | Some (inr result) => returned result
  | Some (inl error) => thrown (catch_block error)
  end.
Proof.
  unfold makeApiCall. cbn.
  destruct (try_block _) as [[e | v] |]; reflexivity.
Qed.

Lemma makeApiCall_config rid endpoint m data options p :
  app_config (makeApiCall net rid endpoint m data options p).1 = app_config p.
Proof.
  unfold makeApiCall.
  destruct (try_block _) as [[e | v] |]; reflexivity.
Qed.

Lemma makeApiCall_activeRequests rid endpoint m data options p :
  activeRequests (app_state (makeApiCall net rid endpoint m data options p).1) =
  if settled (makeApiCall net rid endpoint m data options p).2
  then activeRequests (app_state p) ∖ {[rid]}
  else {[rid]} ∪ activeRequests (app_state p).
Proof.
  unfold makeApiCall.
  destruct (try_block _) as [[e | v] |]; cbn; set_solver.
Qed.

Lemma settled_iff_try_block rid endpoint m data options p :
  settled (makeApiCall net rid endpoint m data options p).2 = true <->
  try_block (net (length (fetched p)) endpoint
               (config (app_config p) m data options)) <> None.
Proof.
  rewrite makeApiCall_result.
  destruct (try_block _) as [[e | v] |]; cbn; split; congruence.
Qed.

Lemma run_calls_cons c calls p :
  run_calls net (c :: calls) p =
  ((run_calls net calls (call net c p).1).1,
   (call net c p).2 :: (run_calls net calls (call net c p).1).2).
Proof.
  cbn. destruct (call net c p) as [p1 r]. cbn.
  destruct (run_calls net calls p1) as [p2 rs]. reflexivity.
Qed.

Lemma run_calls_activeRequests calls : forall p,
  Forall (fun r => settled r = true) (run_calls net calls p).2 ->
  activeRequests (app_state (run_calls net calls p).1) =
  activeRequests (app_state p) ∖ list_to_set (call_id <$> calls).
Proof.
  induction calls as [| c calls IH]; intros p Hall.
  - cbn. set_solver.
  - rewrite run_calls_cons in Hall |- *. cbn in Hall |- *.
    apply Forall_cons in Hall as [Hc Hrest].
    rewrite (IH _ Hrest). unfold call in *.
    rewrite makeApiCall_activeRequests, Hc. set_solver.
Qed.

End MakeApiCall.

Section ActiveRequests.

Import JS App.

Lemma interleaving_keeps_out moments : forall (p : Page) (rid : RequestId),
  (forall m, In m moments -> m <> begins rid) ->
  rid ∉ activeRequests (app_state p) ->
  rid ∉ activeRequests (app_state (interleaving moments p)).
Proof.
  induction moments as [| m moments IH]; intros p rid Hno Hout; [exact Hout |].
  cbn. apply IH.
  - intros m' Hin. apply Hno. now right.
  - destruct m as [r | r]; cbn.
    + assert (r <> rid).
      { intros ->. apply (Hno (begins rid)); [now left | reflexivity]. }
      set_solver.
    + set_solver.
Qed.

(** Calls that overlap leak nothing either: once the [finally] block of
    a call has run, its identifier is out of the set for as long as no
    later call begins with the same identifier. *)
Lemma overlapping_calls_leave_no_request before after (rid : RequestId)
    (p : Page) :
  (forall m, In m after -> m <> begins rid) ->
  rid ∉ activeRequests
          (app_state (interleaving (before ++ ends rid :: after) p)).
Proof.
  intros Hno. unfold interleaving. rewrite fold_left_app. cbn.
  apply interleaving_keeps_out; [exact Hno |]. cbn. set_solver.
Qed.

(** C8.  Every completed call to [makeApiCall], one that returned or
    threw, takes its request identifier out of [appState.activeRequests]
    on its way out, whatever the exit path: after any sequence of
    completed calls the set is the one found at the start less the
    identifiers of the calls.  Hence no identifier of a call is
    left in it, a call whose identifier was not in the set leaves the set
    as it found it, and from the empty set of the freshly loaded script
    the set is empty again after every call. *)
Theorem makeApiCall_leaves_no_active_request (net : Network)
    (calls : list Call) (p : Page) :
  Forall (fun r => settled r = true) (run_calls net calls p).2 ->
  activeRequests (app_state (run_calls net calls p).1) =
    activeRequests (app_state p) ∖ list_to_set (call_id <$> calls)
  /\ (forall c, In c calls ->
        call_id c ∉ activeRequests (app_state (run_calls net calls p).1))
  /\ ((forall c, In c calls -> call_id c ∉ activeRequests (app_state p)) ->
        activeRequests (app_state (run_calls net calls p).1) =
        activeRequests (app_state p))
  /\ (activeRequests (app_state p) = ∅ ->
        activeRequests (app_state (run_calls net calls p).1) = ∅).
Proof.
  intros Hall. pose proof (run_calls_activeRequests net calls p Hall) as Heq.
  split; [exact Heq |]. rewrite Heq.
  assert (Hin : forall c, In c calls ->
            call_id c ∈ (list_to_set (call_id <$> calls) : gset RequestId)).
  { intros c Hc. apply elem_of_list_to_set, list_elem_of_fmap.
    exists c. split; [reflexivity |]. now apply list_elem_of_In. }
  split; [| split].
  - intros c Hc. specialize (Hin c Hc). set_solver.
  - intros Hfresh. apply set_eq. intros x. split; [set_solver |].
    intros Hx. apply elem_of_difference. split; [exact Hx |].
    intros Hx'. apply elem_of_list_to_set, list_elem_of_fmap in Hx'.
    destruct Hx' as (c & -> & Hc). apply list_elem_of_In in Hc.
    exact (Hfresh c Hc Hx).
  - intros ->. set_solver.
Qed.

(** The four exit paths of one call: a normal return, a non-ok status, a
    network failure and a body that is not JSON all run the [finally]
    block. *)
Lemma makeApiCall_exit_paths (net : Network) rid endpoint m data options p :
  let answer :=
    net (length (fetched p)) endpoint
      (config (app_config p) m data options) in
  (forall r v, answer = fulfilled r -> ok r = true ->
     payload r = parses_to v \/ (exists why, payload r = not_json why) ->
     rid ∉ activeRequests
             (app_state (makeApiCall net rid endpoint m data options p).1)) /\
  (forall r, answer = fulfilled r -> ok r = false ->
     rid ∉ activeRequests
             (app_state (makeApiCall net rid endpoint m data options p).1)) /\
  (forall e, answer = rejected e ->
     rid ∉ activeRequests
             (app_state (makeApiCall net rid endpoint m data options p).1)).
Proof.
  cbn. repeat split.
  - intros r v Hanswer Hok Hpayload.
    rewrite makeApiCall_activeRequests, makeApiCall_result, Hanswer.
    cbn. rewrite Hok. cbn.
    destruct Hpayload as [-> | [why ->]]; cbn; set_solver.
  - intros r Hanswer Hok.
    rewrite makeApiCall_activeRequests, makeApiCall_result, Hanswer.
    cbn. rewrite Hok. cbn. set_solver.
  - intros e Hanswer.
    rewrite makeApiCall_activeRequests, makeApiCall_result, Hanswer.
    cbn. set_solver.
Qed.

End ActiveRequests.

(** Three calls in a row on a network that is down at first: the set of
    active requests is empty again at the end. *)
Lemma makeApiCall_leaves_no_active_request_witness :
  App.activeRequests
    (App.app_state
       (App.run_calls Scenario.down_then_up
          [Scenario.send_call 7%Z; Scenario.status_call 8%Z; Scenario.send_call 7%Z]
          Scenario.fresh_page).1) = ∅.
Proof.
  apply (makeApiCall_leaves_no_active_request Scenario.down_then_up
           [Scenario.send_call 7%Z; Scenario.status_call 8%Z; Scenario.send_call 7%Z]
           Scenario.fresh_page).
  - repeat constructor.
  - reflexivity.
Defined.

Section RequestTimeout.

Import JS App Scenario.
Local Open Scope Z_scope.

(** The browser's [fetch] answers the same whatever [timeout] says. *)
Lemma config_signal cfg m data options t :
  signal (config cfg m data (with_timeout t options)) =
  signal (config cfg m data options).
Proof.
  unfold config. cbn.
  destruct (truthy data && negb (String.eqb (toUpperCase m) "GET"));
    reflexivity.
Qed.

Lemma makeApiCall_ignores_timeout server rid endpoint m data options t p :
  (makeApiCall (browser_fetch server) rid endpoint m data
     (with_timeout t options) p).2 =
  (makeApiCall (browser_fetch server) rid endpoint m data options p).2.
Proof.
  rewrite !makeApiCall_result. unfold browser_fetch.
  now rewrite config_signal.
Qed.

(** Without a signal in [options], a server that stays silent leaves the
    call waiting, whatever the timeout. *)
Lemma makeApiCall_waits_for_silent_server server rid endpoint m data
    options p :
  opt_signal options = None ->
  server endpoint = silent ->
  (makeApiCall (browser_fetch server) rid endpoint m data options p).2 =
    never_settles.
Proof.
  intros Hsignal Hsilent. rewrite makeApiCall_result. unfold browser_fetch.
  rewrite Hsilent.
  assert (signal (config (app_config p) m data options) = None) as ->.
  { unfold config.
    destruct (truthy data && negb (String.eqb (toUpperCase m) "GET"));
      cbn; exact Hsignal. }
  reflexivity.
Qed.

(** C2.  The request timeout is not enforced.  A status request made with
    the configured timeout of 30000 ms (or with an explicit timeout of
    1000 ms) to a server that never answers does not end in a timeout
    error: the call never settles and its identifier stays in the set of
    active requests; and an answer that comes after 60000 ms is awaited
    and returned. *)
Theorem makeApiCall_timeout_not_enforced :
  let waiting :=
    makeApiCall (browser_fetch silent_server) 1 "/api/status" "GET" null
      no_options fresh_page in
  let hurried :=
    makeApiCall (browser_fetch silent_server) 1 "/api/status" "GET" null
      (with_timeout (Some 1000) no_options) fresh_page in
  let late :=
    makeApiCall (browser_fetch slow_server) 1 "/api/status" "GET" null
      no_options fresh_page in
  (timeout <$> (snd <$> fetched waiting.1)) = [30000]
  /\ waiting.2 = never_settles
  /\ activeRequests (app_state waiting.1) = {[1]}
  /\ (timeout <$> (snd <$> fetched hurried.1)) = [1000]
  /\ hurried.2 = never_settles
  /\ late.2 = returned (object [("success", boolean true)]).
Proof. vm_compute. repeat split; reflexivity. Qed.

(** With a signal in [options] the same silent server ends the call in
    the timeout error of the [catch] block. *)
Example makeApiCall_with_signal :
  (makeApiCall (browser_fetch silent_server) 1 "/api/status" "GET" null
     {| opt_method := None; opt_headers := None; opt_timeout := None;
        opt_body := None; opt_signal := Some {| abort_after := 1000 |} |}
     fresh_page).2 =
  thrown (mkError "Error" "Requête interrompue (timeout)").
Proof. reflexivity. Qed.

End RequestTimeout.

Section WireContract.

Import JS App Scenario.
Local Open Scope Z_scope.

Lemma ok_iff r : ok r = true <-> 200 <= status r <= 299.
Proof. unfold ok. rewrite andb_true_iff, !Z.leb_le. tauto. Qed.

(** C4, as the claim states it, fails on a report sent with
    [makeApiCall]: the request carries no authentication header, and a
    204 response, which has no JSON body, is thrown as an error although
    its status is in the 2xx class. *)
Lemma report_transmission_counterexample :
  let sent :=
    makeApiCall (always no_content) 1 "/api/send" "POST" inventory
      no_options fresh_page in
  (exists init,
     fetched sent.1 = [("/api/send", init)] /\
     ~ Claimed.wire_contract inventory init)
  /\ ok no_content = true
  /\ sent.2 = thrown (mkError "SyntaxError" "Unexpected end of JSON input")
  /\ ~ Claimed.success_is_2xx no_content sent.2.
Proof.
  cbn zeta. split; [| split; [reflexivity | split; [reflexivity |]]].
  - eexists. split; [reflexivity |].
    intros (_ & _ & _ & credentials & Hin). cbn in Hin.
    destruct Hin as [H | [H | []]]; discriminate H.
  - intros [_ Hsuccess]. destruct (Hsuccess eq_refl) as [v Hv].
    discriminate Hv.
Qed.

(** C4, amended.  A call goes to the caller's endpoint in one request
    built by [config].  Unless [options] replaces them, the method is
    the caller's in upper case and the headers are exactly the JSON content
    type and [X-Requested-With], with no authentication header.  The body
    is [JSON.stringify(data)] exactly when [data] is truthy and the method
    is not GET.  The call returns a result exactly when the status is in
    200-299 and the body parses as JSON; a status outside 200-299 is
    thrown as [HTTP <status>: <statusText>]. *)
Theorem makeApiCall_request_and_success (net : Network) rid endpoint m data
    options p :
  opt_method options = None ->
  opt_headers options = None ->
  let init := config (app_config p) m data options in
  let answer := net (length (fetched p)) endpoint init in
  let sent := makeApiCall net rid endpoint m data options p in
  fetched sent.1 = fetched p ++ [(endpoint, init)]
  /\ method init = toUpperCase m
  /\ headers init =
       [("Content-Type", "application/json");
        ("X-Requested-With", "XMLHttpRequest")]%string
  /\ (forall credentials,
        ~ In ("Authorization"%string, credentials) (headers init))
  /\ body init =
       (if truthy data && negb (String.eqb (toUpperCase m) "GET")
        then Some (JSON_stringify data) else opt_body options)
  /\ (forall v, sent.2 = returned v <->
        exists r, answer = fulfilled r /\ 200 <= status r <= 299 /\
                  payload r = parses_to v)
  /\ (forall r, answer = fulfilled r -> ~ 200 <= status r <= 299 ->
        sent.2 = thrown (mkError "Error"
                   ("HTTP " +:+ pretty (status r) +:+ ": "
                      +:+ statusText r))).
Proof.
  intros Hmethod Hheaders init answer sent.
  assert (Hm : method init = toUpperCase m).
  { subst init. unfold config. rewrite Hmethod.
    destruct (truthy data && _); reflexivity. }
  assert (Hh : headers init = default_headers).
  { subst init. unfold config. rewrite Hheaders.
    destruct (truthy data && _); reflexivity. }
  split; [apply makeApiCall_fetched |].
  split; [exact Hm |]. split; [exact Hh |]. split.
  { intros credentials Hin. rewrite Hh in Hin. cbn in Hin.
    destruct Hin as [H | [H | []]]; discriminate H. }
  split.
  { subst init. unfold config.
    destruct (truthy data && _); reflexivity. }
  subst sent. split.
  - intros v. rewrite makeApiCall_result. fold init. fold answer.
    destruct answer as [r | e |]; cbn.
    + destruct (ok r) eqn:Hok; cbn.
      * apply ok_iff in Hok.
        destruct (payload r) as [v' | why |] eqn:Hpayload; split.
        -- intros [= ->]. exists r. repeat split; [lia | lia | exact Hpayload].
        -- intros (r' & [= <-] & _ & Hv). rewrite Hpayload in Hv.
           now injection Hv as ->.
        -- discriminate.
        -- intros (r' & [= <-] & _ & Hv). rewrite Hpayload in Hv.
           discriminate.
        -- discriminate.
        -- intros (r' & [= <-] & _ & Hv). rewrite Hpayload in Hv.
           discriminate.
      * split; [discriminate |].
        intros (r' & [= <-] & Hrange & _). apply ok_iff in Hrange.
        congruence.
    + split; [discriminate | intros (r' & Hr & _); discriminate].
    + split; [discriminate | intros (r' & Hr & _); discriminate].
  - intros r Hanswer Hrange. rewrite makeApiCall_result. fold init.
    fold answer. rewrite Hanswer. cbn.
    destruct (ok r) eqn:Hok; [apply ok_iff in Hok; contradiction |].
    reflexivity.
Qed.

End WireContract.

(** The one request of a report posted from the freshly loaded page. *)
Lemma makeApiCall_request_and_success_witness :
  App.fetched
    (App.makeApiCall (Scenario.always Scenario.accepted) 1%Z "/api/send"
       "post" Scenario.inventory App.no_options Scenario.fresh_page).1 =
  [("/api/send"%string,
    {| App.method := "POST";
       App.headers :=
         [("Content-Type", "application/json");
          ("X-Requested-With", "XMLHttpRequest")]%string;
       App.timeout := 30000%Z;
       App.body := Some (App.JSON_stringify Scenario.inventory);
       App.signal := None |})].
Proof.
  apply (makeApiCall_request_and_success (Scenario.always Scenario.accepted)
           1%Z "/api/send" "post" Scenario.inventory App.no_options
           Scenario.fresh_page); reflexivity.
Defined.

Section SingleAttempt.

Import JS App Scenario.
Local Open Scope Z_scope.

Variable net : Network.

Lemma makeApiCall_attempts rid endpoint m data options p :
  attempts p (makeApiCall net rid endpoint m data options p).1 = 1%nat.
Proof.
  unfold attempts. rewrite makeApiCall_fetched, length_app. cbn. lia.
Qed.

Lemma makeApiCall_with_maxRetries k rid endpoint m data options p :
  (makeApiCall net rid endpoint m data options (with_maxRetries k p)).2 =
  (makeApiCall net rid endpoint m data options p).2.
Proof. rewrite !makeApiCall_result. reflexivity. Qed.

(** [makeApiCall] makes exactly one attempt: it calls [fetch] once, a
    failure of that request is thrown to the caller at once, and the
    outcome is the same whatever [APP_CONFIG.maxRetries] holds, which the
    script never reads.  Nothing is put back for a later attempt. *)
Theorem makeApiCall_single_attempt k rid endpoint m data options p :
  let sent := makeApiCall net rid endpoint m data options p in
  let answer :=
    net (length (fetched p)) endpoint
      (config (app_config p) m data options) in
  attempts p sent.1 = 1%nat
  /\ (attempts p sent.1 <= S (Z.to_nat (maxRetries (app_config p))))%nat
  /\ (makeApiCall net rid endpoint m data options (with_maxRetries k p)).2 =
       sent.2
  /\ (forall e, answer = rejected e -> sent.2 = thrown (catch_block e))
  /\ (forall r, answer = fulfilled r -> ok r = false ->
        exists e, sent.2 = thrown e).
Proof.
  cbn zeta. rewrite makeApiCall_attempts.
  split; [reflexivity |]. split; [lia |].
  split; [apply makeApiCall_with_maxRetries |]. split.
  - intros e Hanswer. now rewrite makeApiCall_result, Hanswer.
  - intros r Hanswer Hok. rewrite makeApiCall_result, Hanswer. cbn.
    rewrite Hok. cbn. eexists. reflexivity.
Qed.

(** For [makeApiCall] every failure is final: after its one request the
    call throws to its caller, with no retry and no wait.  A
    [TypeError] whose message mentions fetch (the network is unreachable)
    is thrown as "Impossible de contacter le serveur", an [AbortError] as
    "Requête interrompue (timeout)", and any other failure unchanged, by
    the last branch of the [catch] block: a status outside 200-299, 4xx and
    5xx alike, as [HTTP <status>: <statusText>], and a body that is not
    JSON as the parser's error. *)
Theorem makeApiCall_every_failure_is_final rid endpoint m data options p :
  let sent := makeApiCall net rid endpoint m data options p in
  let answer :=
    net (length (fetched p)) endpoint
      (config (app_config p) m data options) in
  attempts p sent.1 = 1%nat
  /\ (forall e, answer = rejected e ->
        sent.2 = thrown
          (if String.eqb (name e) "TypeError" && includes (message e) "fetch"
           then mkError "Error" "Impossible de contacter le serveur"
           else if String.eqb (name e) "AbortError"
           then mkError "Error" "Requête interrompue (timeout)"
           else e))
  /\ (forall r, answer = fulfilled r -> ok r = false ->
        catch_branch (http_error r) = rethrown /\
        sent.2 = thrown (mkError "Error"
                   ("HTTP " +:+ pretty (status r) +:+ ": "
                      +:+ statusText r)))
  /\ (forall r why, answer = fulfilled r -> ok r = true ->
        payload r = not_json why ->
        sent.2 = thrown (mkError "SyntaxError" why))
  /\ (forall e, sent.2 = thrown e ->
        rid ∉ activeRequests (app_state sent.1)).
Proof.
  cbn zeta. split; [apply makeApiCall_attempts |]. split; [| split; [| split]].
  - intros e Hanswer. rewrite makeApiCall_result, Hanswer. cbn.
    unfold catch_block, catch_branch.
    destruct (String.eqb (name e) "TypeError" && includes (message e) "fetch");
      [reflexivity |].
    destruct (String.eqb (name e) "AbortError"); reflexivity.
  - intros r Hanswer Hok. split; [reflexivity |].
    rewrite makeApiCall_result, Hanswer. cbn. now rewrite Hok.
  - intros r why Hanswer Hok Hpayload.
    rewrite makeApiCall_result, Hanswer. cbn. now rewrite Hok, Hpayload.
  - intros e Hthrown. rewrite makeApiCall_activeRequests, Hthrown. cbn.
    set_solver.
Qed.

End SingleAttempt.

Section FormatBytes.

Import JS App.
Local Open Scope Z_scope.

Lemma floor_log_fuel_spec fuel : forall k z,
  2 <= k -> 1 <= z -> (Z.to_nat (Z.log2 z) < fuel)%nat ->
  0 <= floor_log_fuel fuel k z /\
  k ^ floor_log_fuel fuel k z <= z < k ^ (floor_log_fuel fuel k z + 1).
Proof.
  induction fuel as [| fuel IH]; intros k z Hk Hz Hfuel; [lia |].
  cbn [floor_log_fuel]. destruct (z <? k) eqn:Hlt.
  - apply Z.ltb_lt in Hlt. cbn. lia.
  - apply Z.ltb_ge in Hlt.
    assert (Hq : 1 <= z / k) by (apply Z.div_le_lower_bound; lia).
    assert (Hlog : Z.log2 (z / k) <= Z.log2 z - 1).
    { transitivity (Z.log2 (z / 2)).
      - apply Z.log2_le_mono, Z.div_le_compat_l; lia.
      - change 2 with (2 ^ 1). rewrite <- Z.shiftr_div_pow2 by lia.
        rewrite Z.log2_shiftr by lia.
        assert (1 <= Z.log2 z).
        { change 1 with (Z.log2 2) at 1. apply Z.log2_le_mono. lia. }
        lia. }
    assert (Hpos : 0 <= Z.log2 (z / k)) by apply Z.log2_nonneg.
    destruct (IH k (z / k) Hk Hq ltac:(lia)) as (He & Hlo & Hhi).
    set (e := floor_log_fuel fuel k (z / k)) in *.
    pose proof (Z.mul_div_le z k ltac:(lia)) as Hle.
    pose proof (Z.mod_pos_bound z k ltac:(lia)) as Hmod.
    pose proof (Z.div_mod z k ltac:(lia)) as Hdm.
    split; [lia |].
    replace (1 + e + 1) with (Z.succ (e + 1)) by lia.
    replace (1 + e) with (Z.succ e) by lia.
    rewrite !Z.pow_succ_r by lia. nia.
Qed.

Lemma floor_log_spec k z :
  2 <= k -> 1 <= z ->
  0 <= floor_log k z /\ k ^ floor_log k z <= z < k ^ (floor_log k z + 1).
Proof.
  intros Hk Hz. apply floor_log_fuel_spec; [assumption | assumption | lia].
Qed.

Lemma floor_log_lower_bound k z n :
  2 <= k -> 0 <= n -> k ^ n <= z -> n <= floor_log k z.
Proof.
  intros Hk Hn Hz.
  assert (1 <= z) by (pose proof (Z.pow_pos_nonneg k n); lia).
  destruct (floor_log_spec k z Hk ltac:(lia)) as (He & _ & Hhi).
  assert (Hlt : k ^ n < k ^ (floor_log k z + 1)) by lia.
  apply Z.pow_lt_mono_r_iff in Hlt; lia.
Qed.

Lemma toFixed_accepted x digits :
  accepts_digits digits = true ->
  toFixed x digits =
  match x with
  | q_nan => inr "NaN"%string
  | q_infinity negative =>
      inr (if negative then "-Infinity"%string else "Infinity"%string)
  | ratio num den =>
      let f := truncated digits in
      let sign := if num * den <? 0 then "-"%string else ""%string in
      if 10 ^ 21 * Z.abs den <=? Z.abs num then
        inr (sign +:+ String_of_fraction (Z.abs num) (Z.abs den))
      else
        inr (sign +:+
             (if f =? 0 then pretty ((2 * Z.abs num * 10 ^ f + Z.abs den)
                                       / (2 * Z.abs den) / 10 ^ f)
              else pretty ((2 * Z.abs num * 10 ^ f + Z.abs den)
                             / (2 * Z.abs den) / 10 ^ f) +:+ "." +:+
                   low_digits (Z.to_nat f)
                     (((2 * Z.abs num * 10 ^ f + Z.abs den)
                         / (2 * Z.abs den)) mod 10 ^ f)))
  end.
Proof.
  unfold toFixed, accepts_digits. intros Hd.
  assert (Hrange : (truncated digits <? 0) || (100 <? truncated digits)
                   = false).
  { destruct digits; try discriminate Hd;
      apply andb_prop in Hd as [Hlo Hhi];
      apply Z.leb_le in Hlo; apply Z.leb_le in Hhi;
      apply orb_false_iff; split; apply Z.ltb_ge; lia. }
  destruct digits; try discriminate Hd; rewrite Hrange; reflexivity.
Qed.

Lemma toFixed_returns x digits :
  accepts_digits digits = true -> exists fixed, toFixed x digits = inr fixed.
Proof.
  intros Hd. rewrite (toFixed_accepted x digits Hd).
  destruct x as [| negative | num den]; try (eexists; reflexivity).
  cbv zeta. destruct (10 ^ 21 * Z.abs den <=? Z.abs num); eexists; reflexivity.
Qed.

Lemma toFixed_throws x digits :
  accepts_digits digits = false ->
  toFixed x digits =
    inl (mkError "RangeError"
           "toFixed() digits argument must be between 0 and 100").
Proof.
  unfold toFixed, accepts_digits.
  destruct digits as [| | | d | n d]; try reflexivity; try discriminate;
    intros Hd; apply andb_false_iff in Hd as [Hd | Hd];
    apply Z.leb_gt in Hd;
    [ assert ((truncated (int d) <? 0) = true) as -> by (apply Z.ltb_lt; lia)
    | assert ((100 <? truncated (int d)) = true) as -> by (apply Z.ltb_lt; lia)
    | assert ((truncated (fraction n d) <? 0) = true) as ->
        by (apply Z.ltb_lt; lia)
    | assert ((100 <? truncated (fraction n d)) = true) as ->
        by (apply Z.ltb_lt; lia) ];
    rewrite ?orb_true_r; reflexivity.
Qed.

(** The digit count that reaches [toFixed] is refused exactly when
    [decimals] is 101 or more. *)
Lemma clamped_digits decimals :
  accepts_digits (if is_negative decimals then int 0 else decimals) =
  negb (at_least decimals 101).
Proof.
  destruct decimals as [| | | d | n d]; try reflexivity;
    unfold is_negative, accepts_digits, at_least.
  - destruct (d <? 0) eqn:Hneg; cbn [truncated].
    + apply Z.ltb_lt in Hneg. symmetry. apply negb_true_iff, Z.leb_gt. lia.
    + apply Z.ltb_ge in Hneg.
      destruct (101 <=? d) eqn:Hbig; cbn [negb].
      * apply Z.leb_le in Hbig. apply andb_false_iff. right.
        apply Z.leb_gt. lia.
      * apply Z.leb_gt in Hbig. apply andb_true_iff.
        split; apply Z.leb_le; lia.
  - destruct (n <? 0) eqn:Hneg; cbn [truncated].
    + apply Z.ltb_lt in Hneg. symmetry. apply negb_true_iff, Z.leb_gt. lia.
    + apply Z.ltb_ge in Hneg. rewrite Z.quot_div_nonneg by lia.
      assert (Hq : 0 <= n / Z.pos d) by (apply Z.div_pos; lia).
      destruct (101 * Z.pos d <=? n) eqn:Hbig; cbn [negb].
      * apply Z.leb_le in Hbig. apply andb_false_iff. right.
        apply Z.leb_gt.
        assert (101 <= n / Z.pos d) by (apply Z.div_le_lower_bound; lia).
        lia.
      * apply Z.leb_gt in Hbig. apply andb_true_iff.
        split; apply Z.leb_le; [exact Hq |].
        assert (n / Z.pos d < 101) by (apply Z.div_lt_upper_bound; lia).
        lia.
Qed.

Lemma at_least_floor x n : at_least (Math_floor x) n = at_least x n.
Proof.
  destruct x as [| | | z | num den]; try reflexivity. cbn.
  destruct (n * Z.pos den <=? num) eqn:Hle.
  - apply Z.leb_le in Hle. apply Z.leb_le, Z.div_le_lower_bound; lia.
  - apply Z.leb_gt in Hle. apply Z.leb_gt, Z.div_lt_upper_bound; lia.
Qed.

Lemma element_out_of_range (a : list string) i :
  at_least i (Z.of_nat (length a)) = true -> element a i = None.
Proof.
  destruct i as [| | | z | n d]; cbn; try reflexivity.
  - intros Hz. apply Z.leb_le in Hz.
    destruct (z <? 0); [reflexivity |]. apply nth_error_None. lia.
  - intros Hn. apply Z.leb_le in Hn.
    destruct (n <? 0); [reflexivity |].
    destruct (n mod Z.pos d =? 0); [| reflexivity]. cbn.
    apply nth_error_None.
    assert (Z.of_nat (length a) <= n / Z.pos d)
      by (apply Z.div_le_lower_bound; lia).
    lia.
Qed.

Lemma unit_index_of_large bytes :
  at_least bytes (1024 ^ 5) = true ->
  at_least (Math_floor_log_ratio bytes 1024) 5 = true.
Proof.
  assert (0 < 1024 ^ 5) by reflexivity.
  destruct bytes as [| | | z | n d]; cbn -[Z.pow]; try easy.
  - intros Hz. apply Z.leb_le in Hz.
    destruct (z <? 0) eqn:Hneg; [apply Z.ltb_lt in Hneg; lia |].
    destruct (z =? 0) eqn:Hzero; [apply Z.eqb_eq in Hzero; lia |].
    cbn. apply Z.leb_le, floor_log_lower_bound; lia.
  - intros Hn. apply Z.leb_le in Hn.
    destruct (n <? 0) eqn:Hneg; [apply Z.ltb_lt in Hneg; lia |].
    destruct (n =? 0) eqn:Hzero; [apply Z.eqb_eq in Hzero; lia |].
    cbn -[Z.pow]. unfold floor_log_ratio.
    destruct (Z.pos d <=? n) eqn:Hwhole; [| apply Z.leb_gt in Hwhole; nia].
    apply Z.leb_le, floor_log_lower_bound; [lia | lia |].
    apply Z.div_le_lower_bound; lia.
Qed.

Lemma formatBytes_on_suffix log_ratio bytes decimals s :
  is_zero bytes = false ->
  at_least (log_ratio bytes 1024) 5 = true ->
  formatBytes_on log_ratio bytes decimals = inr s ->
  exists amount, s = (amount +:+ " undefined")%string.
Proof.
  intros Hzero Hindex. unfold formatBytes_on. rewrite Hzero.
  destruct (toFixed _ _) as [e | fixed]; [discriminate |].
  intros [= <-]. exists (parseFloat_toString fixed).
  rewrite (element_out_of_range ["B"; "KB"; "MB"; "GB"; "TB"]%string
             (Math_floor (log_ratio bytes 1024))); [reflexivity |].
  rewrite at_least_floor. exact Hindex.
Qed.

Lemma large_is_not_zero bytes :
  at_least bytes (1024 ^ 5) = true -> is_zero bytes = false.
Proof.
  assert (0 < 1024 ^ 5) by reflexivity.
  destruct bytes as [| | | z | n d]; cbn -[Z.pow]; try easy; intros Hle;
    apply Z.leb_le in Hle; apply Z.eqb_neq; lia.
Qed.

(** C9, as the claim states it, fails: with 101 decimals [toFixed]
    raises a RangeError. *)
Lemma formatBytes_counterexample :
  formatBytes (int 1) (int 101) =
    inl (mkError "RangeError"
           "toFixed() digits argument must be between 0 and 100")
  /\ formatBytes (int 0) (int 101) = inr "0 B"%string.
Proof. split; reflexivity. Qed.

(** C9, amended.  [log_ratio] is what the engine computes for
    [Math.log(bytes) / Math.log(1024)]; whatever that is, [formatBytes]
    returns "0 B" for a [bytes] that is 0, with every [decimals]; it
    throws exactly when [bytes] is not 0 and [decimals] is 101 or more,
    the RangeError of [toFixed], which truncates its digit count and
    accepts 0 to 100, so that with [decimals] below 101 it never throws;
    and a returned string ends with the unit "undefined" whenever the
    logarithms' ratio is 5 or more, as the exact one is for every [bytes]
    from 1024^5 up. *)
Theorem formatBytes_zero_suffix_and_errors
    (log_ratio : Number -> Z -> Number) (bytes decimals : Number) :
  formatBytes_on log_ratio (int 0) decimals = inr "0 B"%string
  /\ (is_zero bytes = true ->
      formatBytes_on log_ratio bytes decimals = inr "0 B"%string)
  /\ (is_zero bytes = false ->
      at_least (log_ratio bytes 1024) 5 = true ->
      forall s, formatBytes_on log_ratio bytes decimals = inr s ->
      exists amount, s = (amount +:+ " undefined")%string)
  /\ (at_least bytes (1024 ^ 5) = true ->
      at_least (Math_floor_log_ratio bytes 1024) 5 = true
      /\ forall s, formatBytes bytes decimals = inr s ->
         exists amount, s = (amount +:+ " undefined")%string)
  /\ ((exists e, formatBytes_on log_ratio bytes decimals = inl e) <->
      is_zero bytes = false /\ at_least decimals 101 = true)
  /\ (forall e, formatBytes_on log_ratio bytes decimals = inl e ->
      e = mkError "RangeError"
            "toFixed() digits argument must be between 0 and 100")
  /\ (at_least decimals 101 = false ->
      exists s, formatBytes_on log_ratio bytes decimals = inr s).
Proof.
  assert (Hreturns : at_least decimals 101 = false ->
            exists s, formatBytes_on log_ratio bytes decimals = inr s).
  { intros Hd. unfold formatBytes_on.
    destruct (is_zero bytes); [eexists; reflexivity |].
    destruct (toFixed_returns
                (div_pow bytes 1024 (Math_floor (log_ratio bytes 1024)))
                (if is_negative decimals then int 0 else decimals))
      as [fixed ->]; [now rewrite clamped_digits, Hd |].
    eexists. reflexivity. }
  assert (Hthrows : is_zero bytes = false -> at_least decimals 101 = true ->
            formatBytes_on log_ratio bytes decimals =
              inl (mkError "RangeError"
                     "toFixed() digits argument must be between 0 and 100")).
  { intros Hzero Hd. unfold formatBytes_on. rewrite Hzero.
    rewrite toFixed_throws; [reflexivity |]. now rewrite clamped_digits, Hd. }
  split; [reflexivity |].
  split; [intros Hzero; unfold formatBytes_on; now rewrite Hzero |].
  split; [intros Hzero Hindex s; now apply formatBytes_on_suffix |].
  split.
  { intros Hlarge. pose proof (unit_index_of_large bytes Hlarge) as Hindex.
    split; [exact Hindex |]. intros s.
    apply formatBytes_on_suffix; [now apply large_is_not_zero | exact Hindex]. }
  split; [| split; [| exact Hreturns]].
  - split.
    + intros [e He]. destruct (at_least decimals 101) eqn:Hd.
      * split; [| reflexivity]. unfold formatBytes_on in He.
        destruct (is_zero bytes); [discriminate | reflexivity].
      * destruct (Hreturns eq_refl) as [s Hs]. congruence.
    + intros [Hzero Hd]. eexists. now apply Hthrows.
  - intros e He. destruct (is_zero bytes) eqn:Hzero.
    + unfold formatBytes_on in He. rewrite Hzero in He. discriminate.
    + destruct (at_least decimals 101) eqn:Hd.
      * rewrite (Hthrows eq_refl eq_refl) in He. now injection He as <-.
      * destruct (Hreturns eq_refl) as [s Hs]. congruence.
Qed.

(** What the function prints for a few sizes: whole and fractional
    counts of bytes and of decimals, the size one byte short of a
    power of 1024, and a fraction that a double holds with more digits
    than it tells apart. *)
Example formatBytes_samples :
  formatBytes (int 1536) default_decimals = inr "1.5 KB"%string
  /\ formatBytes (int 1023) (int 0) = inr "1023 B"%string
  /\ formatBytes (int 123456789) (int 3) = inr "117.738 MB"%string
  /\ formatBytes (int 1048575) default_decimals = inr "1024 KB"%string
  /\ formatBytes (int (1024 ^ 4)) (int (-1)) = inr "1 TB"%string
  /\ formatBytes (int (1024 ^ 5)) default_decimals =
       inr "1 undefined"%string
  /\ formatBytes (int (-5)) default_decimals = inr "NaN undefined"%string
  /\ formatBytes Infinity NaN = inr "NaN undefined"%string
  /\ formatBytes (int 1) (fraction 201 2) = inr "1 B"%string
  /\ formatBytes (int 1500) (fraction (-1) 2) = inr "1 KB"%string
  /\ formatBytes (fraction 1 2) default_decimals =
       inr "512 undefined"%string
  /\ formatBytes (fraction 3073 2) (int 1) = inr "1.5 KB"%string
  /\ formatBytes (int 1048577) (int 20) =
       inr "1.0000009536743164 MB"%string
  /\ formatBytes_on (fun _ _ => int 5) (int (1024 ^ 5 - 1))
       default_decimals = inr "1 undefined"%string
  /\ toFixed (ratio (10 ^ 21) 1) (int 2) = inr "1e+21"%string
  /\ parseFloat_toString "0.30000000000000004441" =
       "0.30000000000000004"%string.
Proof. vm_compute. repeat split; reflexivity. Qed.

End FormatBytes.

Section DebugMode.

Import JS App.

(** C10.  After [setDebugMode(enabled)] the flag [APP_CONFIG.debugMode]
    is [enabled] and the storage holds its string form under the key
    "debugMode".  When the script is loaded with "true" stored there, it
    calls [setDebugMode(true)]; so loading the script again on the storage
    that [setDebugMode(enabled)] left gives back the flag [enabled]. *)
Theorem setDebugMode_round_trip (enabled : bool) (p : Page) (onLine : bool)
    (storage : gmap string string) (classes : gset string) :
  let p' := setDebugMode enabled p in
  debugMode (app_config p') = enabled
  /\ localStorage p' !! "debugMode"%string = Some (String_of_bool enabled)
  /\ load_script onLine (<["debugMode"%string := "true"%string]> storage)
       classes =
     setDebugMode true {|
       app_config := APP_CONFIG;
       app_state := appState onLine;
       localStorage := <["debugMode"%string := "true"%string]> storage;
       bodyClasses := classes;
       fetched := []
     |}
  /\ debugMode (app_config (load_script onLine (localStorage p') classes)) =
       enabled.
Proof.
  cbn zeta. split; [reflexivity |]. split; [apply lookup_insert_eq |]. split.
  - unfold load_script. rewrite lookup_insert_eq.
    destruct (decide _) as [_ | Hne]; [reflexivity | now destruct Hne].
  - unfold load_script. cbn [localStorage setDebugMode].
    rewrite lookup_insert_eq. destruct enabled; cbn [String_of_bool].
    + destruct (decide _) as [_ | Hne]; [reflexivity | now destruct Hne].
    + destruct (decide _) as [Heq | _]; [discriminate Heq | reflexivity].
Qed.

End DebugMode.

Section RegularExpressions.

Import JS.

Lemma nullable_matches r : nullable r = true <-> Matches r [].
Proof.
  split.
  - induction r as [| | member | r1 IH1 r2 IH2 | r1 IH1 r2 IH2 | r IH]; cbn;
      try discriminate.
    + intros _. constructor.
    + intros H. apply andb_true_iff in H as [H1 H2].
      change (@nil CodeUnit) with (@nil CodeUnit ++ []).
      constructor; auto.
    + intros H. apply orb_true_iff in H as [H | H];
        [apply m_alt_l | apply m_alt_r]; auto.
    + intros _. constructor.
  - intros H. remember [] as s eqn:Hs.
    induction H as [| member c Hc | r1 r2 s1 s2 H1 IH1 H2 IH2
                    | r1 r2 s H IH | r1 r2 s H IH | r
                    | r s1 s2 H1 IH1 H2 IH2]; cbn; try reflexivity.
    + discriminate.
    + apply app_eq_nil in Hs as [-> ->]. now rewrite IH1, IH2.
    + now rewrite IH.
    + rewrite IH by assumption. apply orb_true_r.
Qed.

Lemma matches_derive c r : forall s, Matches (derive c r) s -> Matches r (c :: s).
Proof.
  induction r as [| | member | r1 IH1 r2 IH2 | r1 IH1 r2 IH2 | r IH];
    intros s H; cbn in H.
  - inversion H.
  - inversion H.
  - destruct (member c) eqn:Hc; inversion H; subst. now constructor.
  - destruct (nullable r1) eqn:Hn.
    + inversion H as [| | | ? ? ? Hl | ? ? ? Hr | |]; subst.
      * inversion Hl as [| | ? ? s1 s2 H1 H2 | | | |]; subst.
        change (c :: s1 ++ s2) with ((c :: s1) ++ s2). constructor; auto.
      * change (c :: s) with ([] ++ c :: s). constructor; auto.
        now apply nullable_matches.
    + inversion H as [| | ? ? s1 s2 H1 H2 | | | |]; subst.
      change (c :: s1 ++ s2) with ((c :: s1) ++ s2). constructor; auto.
  - inversion H; subst; [apply m_alt_l | apply m_alt_r]; auto.
  - inversion H as [| | ? ? s1 s2 H1 H2 | | | |]; subst.
    change (c :: s1 ++ s2) with ((c :: s1) ++ s2). constructor; auto.
Qed.

Lemma derive_matches r cs :
  Matches r cs -> forall c s, cs = c :: s -> Matches (derive c r) s.
Proof.
  induction 1 as [| member c0 Hc | r1 r2 s1 s2 H1 IH1 H2 IH2
                  | r1 r2 s0 H IH | r1 r2 s0 H IH | r
                  | r s1 s2 H1 IH1 H2 IH2]; intros c s Hcs; cbn.
  - discriminate.
  - injection Hcs as <- <-. rewrite Hc. constructor.
  - destruct s1 as [| c1 s1].
    + cbn in Hcs. subst s2.
      assert (nullable r1 = true) as -> by now apply nullable_matches.
      apply m_alt_r. now apply IH2.
    + injection Hcs as -> <-.
      destruct (nullable r1); [apply m_alt_l |]; constructor; auto.
  - apply m_alt_l. auto.
  - apply m_alt_r. auto.
  - discriminate.
  - destruct s1 as [| c1 s1].
    + cbn in Hcs. now apply IH2.
    + injection Hcs as -> <-. constructor; auto.
Qed.

Lemma regex_test_matches s : forall r, regex_test r s = true <-> Matches r s.
Proof.
  induction s as [| c s IH]; intros r; cbn.
  - apply nullable_matches.
  - rewrite IH. split; [apply matches_derive |].
    intros H. now apply (derive_matches r (c :: s)).
Qed.

Lemma matches_seq r1 r2 s :
  Matches (r_seq r1 r2) s <->
  exists s1 s2, s = s1 ++ s2 /\ Matches r1 s1 /\ Matches r2 s2.
Proof.
  split.
  - intros H. inversion H; subst. eauto.
  - intros (s1 & s2 & -> & H1 & H2). now constructor.
Qed.

Lemma matches_class member s :
  Matches (r_class member) s <-> exists c, s = [c] /\ member c = true.
Proof.
  split.
  - intros H. inversion H; subst. eauto.
  - intros (c & -> & Hc). now constructor.
Qed.

Lemma matches_star_class member s :
  Matches (r_star (r_class member)) s <->
  Forall (fun c => member c = true) s.
Proof.
  split.
  - intros H. remember (r_star (r_class member)) as r eqn:Hr.
    induction H as [| | | | | r0 | r0 s1 s2 H1 _ H2 IH2]; try discriminate.
    + constructor.
    + injection Hr as ->. apply matches_class in H1 as (c & -> & Hc).
      constructor; auto.
  - induction 1 as [| c s Hc _ IH]; [constructor |].
    change (c :: s) with ([c] ++ s). constructor; [now constructor | exact IH].
Qed.

Lemma matches_plus_class member s :
  Matches (r_plus (r_class member)) s <->
  s <> [] /\ Forall (fun c => member c = true) s.
Proof.
  unfold r_plus. rewrite matches_seq. split.
  - intros (s1 & s2 & -> & H1 & H2).
    apply matches_class in H1 as (c & -> & Hc).
    apply matches_star_class in H2. split; [discriminate |].
    constructor; auto.
  - intros [Hne Hall]. destruct s as [| c s]; [contradiction |].
    inversion Hall; subst. exists [c], s. split; [reflexivity |].
    split; [now constructor | now apply matches_star_class].
Qed.

End RegularExpressions.

Section ValidEmail.

Import JS App.

Lemma isValidEmail_parts email :
  isValidEmail email = true <->
  exists name domain tld,
    email = name ++ at_sign :: domain ++ full_stop :: tld /\
    name <> [] /\ domain <> [] /\ tld <> [] /\
    Forall (fun c => not_space_at c = true) (name ++ domain ++ tld).
Proof.
  unfold isValidEmail, email_pattern. rewrite regex_test_matches. split.
  - intros H.
    apply matches_seq in H as (name & s1 & -> & Hname & H).
    apply matches_seq in H as (at_ & s2 & -> & Hat & H).
    apply matches_seq in H as (domain & s3 & -> & Hdomain & H).
    apply matches_seq in H as (dot & tld & -> & Hdot & Htld).
    apply matches_plus_class in Hname as [Hn1 Hn2].
    apply matches_plus_class in Hdomain as [Hd1 Hd2].
    apply matches_plus_class in Htld as [Ht1 Ht2].
    apply matches_class in Hat as (c & -> & Hc). apply N.eqb_eq in Hc as <-.
    apply matches_class in Hdot as (c & -> & Hc). apply N.eqb_eq in Hc as <-.
    exists name, domain, tld. split; [reflexivity |].
    repeat split; try assumption. now rewrite !Forall_app.
  - intros (name & domain & tld & -> & Hn & Hd & Ht & Hall).
    rewrite !Forall_app in Hall. destruct Hall as (Hn' & Hd' & Ht').
    apply matches_seq. exists name, (at_sign :: domain ++ full_stop :: tld).
    split; [reflexivity |]. split; [now apply matches_plus_class |].
    apply matches_seq. exists [at_sign], (domain ++ full_stop :: tld).
    split; [reflexivity |].
    split; [constructor; apply N.eqb_refl |].
    apply matches_seq. exists domain, (full_stop :: tld).
    split; [reflexivity |]. split; [now apply matches_plus_class |].
    apply matches_seq. exists [full_stop], tld.
    split; [reflexivity |].
    split; [constructor; apply N.eqb_refl | now apply matches_plus_class].
Qed.

(** [isValidEmail] accepts exactly the strings made of a name, an at
    sign, a domain, a full stop and an ending, the three parts not empty
    and free of white space and of at signs. *)
Theorem isValidEmail_accepts_exactly email :
  isValidEmail email = true <->
  exists name domain tld,
    email = name ++ at_sign :: domain ++ full_stop :: tld /\
    name <> [] /\ domain <> [] /\ tld <> [] /\
    Forall (fun c => not_space_at c = true) (name ++ domain ++ tld).
Proof. apply isValidEmail_parts. Qed.

Lemma count_none (s : list CodeUnit) :
  Forall (fun c => not_space_at c = true) s ->
  count_occ N.eq_dec s at_sign = 0%nat.
Proof.
  induction 1 as [| c s Hc _ IH]; [reflexivity |]. cbn.
  destruct (N.eq_dec c at_sign) as [-> | _]; [| exact IH].
  unfold not_space_at in Hc. rewrite N.eqb_refl, andb_false_r in Hc.
  discriminate.
Qed.

(** An address that [isValidEmail] accepts has exactly one at sign, no
    white space, a full stop after the at sign, and at least five code
    units. *)
Theorem isValidEmail_never_accepts email :
  isValidEmail email = true ->
  count_occ N.eq_dec email at_sign = 1%nat
  /\ Forall (fun c => white_space c = false) email
  /\ (exists before after,
        email = before ++ at_sign :: after /\ In full_stop after)
  /\ (5 <= length email)%nat.
Proof.
  intros H. apply isValidEmail_parts in H
    as (name & domain & tld & -> & Hn & Hd & Ht & Hall).
  pose proof Hall as Hall'. rewrite !Forall_app in Hall'.
  destruct Hall' as (Hn' & Hd' & Ht').
  split; [| split; [| split]].
  - rewrite count_occ_app. cbn.
    destruct (N.eq_dec at_sign at_sign) as [_ | Hne]; [| contradiction].
    rewrite count_occ_app. cbn.
    destruct (N.eq_dec full_stop at_sign) as [Heq | _]; [discriminate Heq |].
    rewrite !count_none by assumption. reflexivity.
  - assert (Hspace : forall s, Forall (fun c => not_space_at c = true) s ->
                       Forall (fun c => white_space c = false) s).
    { intros s Hs. eapply Forall_impl; [exact Hs |]. cbn. intros c Hc.
      unfold not_space_at in Hc. apply andb_true_iff in Hc as [Hc _].
      now apply negb_true_iff in Hc. }
    apply Forall_app. split; [auto |]. constructor; [reflexivity |].
    apply Forall_app. split; [auto |]. constructor; [reflexivity | auto].
  - exists name, (domain ++ full_stop :: tld). split; [reflexivity |].
    apply in_or_app. right. now left.
  - rewrite length_app. cbn. rewrite length_app. cbn.
    destruct name; [contradiction |]. destruct domain; [contradiction |].
    destruct tld; [contradiction |]. cbn. lia.
Qed.

End ValidEmail.

(** The address of the README's example server is accepted, with its one
    at sign. *)
Lemma isValidEmail_never_accepts_witness :
  App.isValidEmail (JS.units "admin@inventaire.entreprise.com") = true
  /\ count_occ N.eq_dec (JS.units "admin@inventaire.entreprise.com")
       App.at_sign = 1%nat.
Proof.
  split; [reflexivity |].
  apply (isValidEmail_never_accepts
           (JS.units "admin@inventaire.entreprise.com")).
  reflexivity.
Defined.

Section FormatTime.

Import JS App.
Local Open Scope Z_scope.

(** [formatTime] says "À l'instant" for every date less than a minute
    old, dates in the future included; it counts 1 to 59 whole minutes up
    to the hour and 1 to 23 whole hours up to the day; and from one day on
    it prints the date itself. *)
Theorem formatTime_ranges (now d : Z) :
  (now - d < 60000 -> formatTime now (Some d) = literally "À l'instant")
  /\ (60000 <= now - d < 3600000 ->
      exists minutes,
        minutes = (now - d) / 60000 /\ 1 <= minutes <= 59 /\
        formatTime now (Some d) =
          literally ("Il y a " +:+ pretty minutes +:+ " min"))
  /\ (3600000 <= now - d < 86400000 ->
      exists hours,
        hours = (now - d) / 3600000 /\ 1 <= hours <= 23 /\
        formatTime now (Some d) =
          literally ("Il y a " +:+ pretty hours +:+ "h"))
  /\ (86400000 <= now - d ->
      formatTime now (Some d) = toLocaleString (Some d)).
Proof.
  unfold formatTime. repeat split.
  - intros H. apply Z.ltb_lt in H. now rewrite H.
  - intros [Hlo Hhi]. exists ((now - d) / 60000).
    split; [reflexivity |].
    split; [split; [apply Z.div_le_lower_bound; lia
                   | apply Z.lt_succ_r, Z.div_lt_upper_bound; lia] |].
    apply Z.ltb_ge in Hlo. apply Z.ltb_lt in Hhi. now rewrite Hlo, Hhi.
  - intros [Hlo Hhi]. exists ((now - d) / 3600000).
    split; [reflexivity |].
    split; [split; [apply Z.div_le_lower_bound; lia
                   | apply Z.lt_succ_r, Z.div_lt_upper_bound; lia] |].
    assert (H1 : (now - d <? 60000) = false) by (apply Z.ltb_ge; lia).
    apply Z.ltb_ge in Hlo. apply Z.ltb_lt in Hhi. now rewrite H1, Hlo, Hhi.
  - intros H.
    assert (H1 : (now - d <? 60000) = false) by (apply Z.ltb_ge; lia).
    assert (H2 : (now - d <? 3600000) = false) by (apply Z.ltb_ge; lia).
    assert (H3 : (now - d <? 86400000) = false) by (apply Z.ltb_ge; lia).
    now rewrite H1, H2, H3.
Qed.

End FormatTime.

Section Throttle.

Import App.

Context {A : Type}.
Variable throws : A -> bool.

Lemma throttle_step_keeps (t : Throttled A) (tick : Tick A) :
  throttle_timers t = (if inThrottle t then 1 else 0) /\
  length (List.filter (fun args => negb (throws args)) (throttle_calls t)) =
    throttle_fired t + throttle_timers t ->
  throttle_timers (throttle_step throws t tick) =
    (if inThrottle (throttle_step throws t tick) then 1 else 0) /\
  length (List.filter (fun args => negb (throws args))
            (throttle_calls (throttle_step throws t tick))) =
    throttle_fired (throttle_step throws t tick) +
    throttle_timers (throttle_step throws t tick).
Proof.
  intros [Htimers Hcount].
  destruct tick as [args |]; cbn.
  - destruct (inThrottle t) eqn:Hin; [now rewrite Hin |].
    destruct (throws args) eqn:Hthrows; cbn.
    + rewrite ?Hin, List.filter_app, length_app. cbn. rewrite Hthrows. cbn.
      split; [exact Htimers | lia].
    + rewrite List.filter_app, length_app. cbn. rewrite Hthrows. cbn.
      split; lia.
  - destruct (throttle_timers t) as [| timers] eqn:Hpending.
    + rewrite Hpending. split; [exact Htimers | exact Hcount].
    + cbn. destruct (inThrottle t); split; lia.
Qed.

Lemma throttle_run_keeps (ticks : list (Tick A)) : forall t,
  throttle_timers t = (if inThrottle t then 1 else 0) /\
  length (List.filter (fun args => negb (throws args)) (throttle_calls t)) =
    throttle_fired t + throttle_timers t ->
  throttle_timers (throttle_run throws ticks t) =
    (if inThrottle (throttle_run throws ticks t) then 1 else 0) /\
  length (List.filter (fun args => negb (throws args))
            (throttle_calls (throttle_run throws ticks t))) =
    throttle_fired (throttle_run throws ticks t) +
    throttle_timers (throttle_run throws ticks t).
Proof.
  induction ticks as [| tick ticks IH]; intros t Ht; [exact Ht |].
  cbn. apply IH, throttle_step_keeps, Ht.
Qed.

(** However a throttled function is called and whenever its timers
    fire, at most one timer is pending, and the calls that [func]
    completed are as many as the timers that fired, plus the pending one:
    two completed calls are always a fired timer apart.  A call made while
    [inThrottle] holds changes nothing, so it is dropped for good. *)
Theorem throttle_one_call_per_timer (ticks : list (Tick A)) :
  let t := throttle_run throws ticks throttle in
  throttle_timers t <= 1
  /\ throttle_timers t = (if inThrottle t then 1 else 0)
  /\ length (List.filter (fun args => negb (throws args)) (throttle_calls t)) =
       throttle_fired t + throttle_timers t
  /\ (forall args, inThrottle t = true ->
        throttle_step throws t (invoked args) = t).
Proof.
  cbn zeta.
  destruct (throttle_run_keeps ticks throttle (conj eq_refl eq_refl))
    as [Htimers Hcount].
  split; [| split; [exact Htimers | split; [exact Hcount |]]].
  - rewrite Htimers. destruct (inThrottle _); lia.
  - intros args Hin. cbn. now rewrite Hin.
Qed.

End Throttle.

Section Debounce.

Import App.

Context {A : Type}.

Lemma debounce_burst_trailing (burst : list A) : forall (d : Debounced A) last,
  debounce_run false (List.map invoked (burst ++ [last])) d =
  {| debounce_timeout := Some last; debounce_calls := debounce_calls d |}.
Proof.
  unfold debounce_run.
  induction burst as [| args burst IH]; intros d last; [reflexivity |].
  cbn. now rewrite IH.
Qed.

(** Without [immediate], a burst of calls followed by the firing of the
    timer runs [func] once, with the arguments of the last call of the
    burst; the calls themselves never run it, and a timer that was pending
    before the burst is cleared. *)
Theorem debounce_runs_last_call_once (d : Debounced A) (burst : list A)
    (last : A) :
  debounce_run false (List.map invoked (burst ++ [last]) ++ [timer_fired]) d =
    {| debounce_timeout := None;
       debounce_calls := debounce_calls d ++ [last] |}
  /\ debounce_calls (debounce_run false (List.map invoked (burst ++ [last])) d)
     = debounce_calls d.
Proof.
  unfold debounce_run at 1. rewrite fold_left_app.
  fold (debounce_run false (List.map invoked (burst ++ [last])) d).
  rewrite debounce_burst_trailing. split; reflexivity.
Qed.

Lemma debounce_burst_leading (burst : list A) : forall (d : Debounced A) pending,
  debounce_timeout d = Some pending ->
  debounce_calls (debounce_run true (List.map invoked burst) d) =
    debounce_calls d /\
  debounce_timeout (debounce_run true (List.map invoked burst) d) <> None.
Proof.
  unfold debounce_run.
  induction burst as [| args burst IH]; intros d pending Hd.
  - cbn. rewrite Hd. split; [reflexivity | discriminate].
  - cbn. rewrite Hd. cbn.
    destruct (IH {| debounce_timeout := Some args;
                    debounce_calls := debounce_calls d |} args eq_refl)
      as [Hcalls Htimeout].
    split; assumption.
Qed.

(** With [immediate], the first call of a burst runs [func] at once and
    no later call of the burst does, nor does the timer when it fires;
    after that the closure is idle again, so the next call runs at once. *)
Theorem debounce_immediate_runs_first_call_once (calls : list A) (first : A)
    (rest : list A) :
  let idle := {| debounce_timeout := None; debounce_calls := calls |} in
  debounce_run true (List.map invoked (first :: rest) ++ [timer_fired]) idle =
    {| debounce_timeout := None; debounce_calls := calls ++ [first] |}.
Proof.
  cbn zeta. unfold debounce_run. rewrite fold_left_app. cbn.
  set (d := {| debounce_timeout := Some first;
               debounce_calls := calls ++ [first] |}).
  destruct (debounce_burst_leading rest d first eq_refl) as [Hcalls Htimeout].
  unfold debounce_run in Hcalls, Htimeout.
  destruct (fold_left (debounce_step true) (List.map invoked rest) d)
    as [[pending |] run_calls]; cbn in *; [| contradiction].
  now rewrite Hcalls.
Qed.

End Debounce.

Section Notifications.

Import JS App.
Local Open Scope Z_scope.

Lemma remove_first_fresh id (l : list Notification) :
  Forall (fun n => notif_id n <> id) l -> remove_first id l = l.
Proof.
  induction 1 as [| n l Hn _ IH]; [reflexivity |]. cbn.
  destruct (notif_id n =? id) eqn:Heq; [apply Z.eqb_eq in Heq; contradiction |].
  now rewrite IH.
Qed.

Lemma remove_first_app id (l : list Notification) n :
  Forall (fun n => notif_id n <> id) l -> notif_id n = id ->
  remove_first id (l ++ [n]) = l.
Proof.
  intros Hl Hn. induction Hl as [| n0 l Hn0 _ IH]; cbn.
  - now rewrite Hn, Z.eqb_refl.
  - destruct (notif_id n0 =? id) eqn:Heq;
      [apply Z.eqb_eq in Heq; contradiction |].
    now rewrite IH.
Qed.

(** Showing a notification and hiding its toast leaves the page as it
    was, when no notification already listed has the same identifier, the
    millisecond of [Date.now()]. *)
Theorem toast_hidden_undoes_showNotification (now stamp : Z)
    (message type : string) (p : Page) :
  Forall (fun n => notif_id n <> now) (notifications (app_state p)) ->
  (showNotification now stamp message type p).2 = now /\
  toast_hidden (showNotification now stamp message type p).2
    (showNotification now stamp message type p).1 = p.
Proof.
  intros Hfresh. split; [reflexivity |].
  destruct p as [cfg [online updated active listed] storage classes log].
  unfold toast_hidden, showNotification, with_notifications. cbn in *.
  now rewrite remove_first_app.
Qed.

(** Hiding a toast removes at most one notification, and only one with
    the toast's identifier: the notifications with another identifier stay,
    in their order, and of those with the identifier the oldest goes,
    which is another toast's notification when two were shown in the same
    millisecond. *)
Theorem toast_hidden_removes_oldest (id : Z) (p : Page) :
  let before := notifications (app_state p) in
  let after := notifications (app_state (toast_hidden id p)) in
  List.filter (fun n => negb (notif_id n =? id)) after =
    List.filter (fun n => negb (notif_id n =? id)) before
  /\ length after =
       (length before -
        (if List.existsb (fun n => (notif_id n =? id)%Z) before
         then 1 else 0))%nat
  /\ (forall older n newer,
        before = older ++ n :: newer -> notif_id n = id ->
        Forall (fun n => notif_id n <> id) older ->
        after = older ++ newer).
Proof.
  cbn zeta. unfold toast_hidden, with_notifications. cbn.
  generalize (notifications (app_state p)) as l. intros l.
  split; [| split].
  - induction l as [| n l IH]; [reflexivity |]. cbn.
    destruct (notif_id n =? id) eqn:Heq; cbn; [reflexivity |].
    now rewrite Heq, IH.
  - induction l as [| n l IH]; [reflexivity |]. cbn.
    destruct (notif_id n =? id) eqn:Heq; cbn; [lia |].
    rewrite IH. destruct (List.existsb _ l) eqn:Hex; [| lia].
    apply existsb_exists in Hex as (n' & Hin & _).
    destruct l; [contradiction | cbn; lia].
  - intros older n newer -> Hn Holder.
    induction Holder as [| n0 older Hn0 _ IH]; cbn.
    + now rewrite Hn, Z.eqb_refl.
    + destruct (notif_id n0 =? id) eqn:Heq;
        [apply Z.eqb_eq in Heq; contradiction |].
      now rewrite IH.
Qed.

End Notifications.

(** A notification shown and hidden on the freshly loaded page. *)
Lemma toast_hidden_undoes_showNotification_witness :
  App.toast_hidden 1700000000000%Z
    (App.showNotification 1700000000000%Z 1700000000000%Z "Connexion perdue"
       "warning" Scenario.fresh_page).1 = Scenario.fresh_page.
Proof.
  apply (toast_hidden_undoes_showNotification 1700000000000%Z
           1700000000000%Z "Connexion perdue" "warning" Scenario.fresh_page).
  constructor.
Defined.

Section Connectivity.

Import JS App.
Local Open Scope Z_scope.

(** A connectivity check that settles leaves [isOnline] true exactly when
    the server answered with a status in 200-299.  It shows one
    notification when that changes [isOnline], a success when the server is
    back and a warning when it is lost, and none when nothing changed; and
    it touches neither the configuration nor the active requests. *)
Theorem checkConnectivity_follows_server (net : Network) (now stamp : Z)
    (p p' : Page) :
  checkConnectivity net now stamp p = Some p' ->
  let reached :=
    match net (length (fetched p)) "/api/status"%string status_request with
    | fulfilled response => ok response
    | _ => false
    end in
  isOnline (app_state p') = reached
  /\ fetched p' = fetched p ++ [("/api/status"%string, status_request)]
  /\ notifications (app_state p') =
       notifications (app_state p) ++
       (if Bool.eqb (isOnline (app_state p)) reached then []
        else [{| notif_id := now;
                 notif_message :=
                   if reached then "Connexion au serveur rétablie"%string
                   else "Problème de connexion serveur"%string;
                 notif_type :=
                   if reached then "success"%string else "warning"%string;
                 notif_timestamp := stamp |}])
  /\ activeRequests (app_state p') = activeRequests (app_state p)
  /\ app_config p' = app_config p.
Proof.
  unfold checkConnectivity. cbn zeta.
  destruct (net _ _ _) as [response | e |]; [| | discriminate].
  - destruct (ok response); intros [= <-];
      unfold server_reached, server_lost; cbn;
      destruct (isOnline (app_state p)) eqn:Honline; cbn;
      rewrite ?Honline, ?app_nil_r; repeat split; reflexivity.
  - intros [= <-]. unfold server_lost. cbn.
    destruct (isOnline (app_state p)) eqn:Honline; cbn;
      rewrite ?Honline, ?app_nil_r; repeat split; reflexivity.
Qed.

(** A check that never settles is one whose [fetch] never settles: the
    timeout of 5000 ms written in the request does not end it. *)
Lemma checkConnectivity_waits (server : string -> ServerBehaviour)
    (now stamp : Z) (p : Page) :
  server "/api/status"%string = silent ->
  checkConnectivity (browser_fetch server) now stamp p = None.
Proof.
  intros Hsilent. unfold checkConnectivity, browser_fetch.
  now rewrite Hsilent.
Qed.

End Connectivity.

(** The server is lost on a page that was online: one warning. *)
Lemma checkConnectivity_follows_server_witness :
  App.isOnline
    (App.app_state
       (App.server_lost 5%Z 6%Z
          (App.with_fetched "/api/status" App.status_request
             Scenario.fresh_page))) = false
  /\ App.checkConnectivity (Scenario.always Scenario.unavailable) 5%Z 6%Z
       Scenario.fresh_page =
     Some (App.server_lost 5%Z 6%Z
             (App.with_fetched "/api/status" App.status_request
                Scenario.fresh_page)).
Proof.
  split; [| reflexivity].
  apply (checkConnectivity_follows_server
           (Scenario.always Scenario.unavailable) 5%Z 6%Z Scenario.fresh_page).
  reflexivity.
Defined.

Section RequestOptions.

Import JS App.
Local Open Scope Z_scope.

(** What [options] does to the request: each member it holds replaces the
    one of the literal.  So a method given in [options] goes out as it is
    written, not in upper case, and has no say in whether [data] is sent,
    which the [method] argument alone decides; and a timeout given in
    [options] is the timeout of the request even when it is 0, the
    fallback to [APP_CONFIG.apiTimeout] deciding only when [options] has
    none. *)
Theorem config_options_replace (cfg : AppConfig) (m : string) (data : Value)
    (options : Options) :
  let init := config cfg m data options in
  method init = default (toUpperCase m) (opt_method options)
  /\ headers init = default default_headers (opt_headers options)
  /\ timeout init = default (apiTimeout cfg) (opt_timeout options)
  /\ signal init = opt_signal options
  /\ (body init = Some (JSON_stringify data) \/ body init = opt_body options)
  /\ (truthy data = true -> toUpperCase m <> "GET"%string ->
      body init = Some (JSON_stringify data))
  /\ (toUpperCase m = "GET"%string -> body init = opt_body options).
Proof.
  cbn zeta. unfold config.
  set (sends := truthy data && negb (String.eqb (toUpperCase m) "GET")).
  assert (Htimeout :
            default (timeout_or options cfg) (opt_timeout options) =
            default (apiTimeout cfg) (opt_timeout options)).
  { unfold timeout_or. destruct (opt_timeout options); reflexivity. }
  split; [destruct sends; reflexivity |].
  split; [destruct sends; reflexivity |].
  split; [destruct sends; cbn; exact Htimeout |].
  split; [destruct sends; reflexivity |].
  split; [destruct sends; cbn; auto |].
  split.
  - intros Hdata Hget. subst sends. rewrite Hdata.
    apply String.eqb_neq in Hget. now rewrite Hget.
  - intros Hget. subst sends. apply String.eqb_eq in Hget.
    now rewrite Hget, andb_false_r.
Qed.

End RequestOptions.

Section DebugModeAgain.

Import JS App.

(** The last call to [setDebugMode] decides: a call after another leaves
    the page as the second call alone would.  And a call changes nothing
    in the storage but the key "debugMode". *)
Theorem setDebugMode_last_call_wins (first second : bool) (p : Page) :
  setDebugMode second (setDebugMode first p) = setDebugMode second p
  /\ (forall key, key <> "debugMode"%string ->
        localStorage (setDebugMode second p) !! key = localStorage p !! key)
  /\ app_state (setDebugMode second p) = app_state p
  /\ fetched (setDebugMode second p) = fetched p.
Proof.
  split; [| split; [| split; reflexivity]].
  - unfold setDebugMode. cbn. rewrite insert_insert_eq. f_equal.
    destruct first, second; apply set_eq; intros class;
      rewrite ?elem_of_union, ?elem_of_difference, ?elem_of_union,
        ?elem_of_singleton;
      destruct (decide (class = "debug-mode"%string)); tauto.
  - intros key Hkey. cbn. now apply lookup_insert_ne.
Qed.

End DebugModeAgain.

(** Two calls overlap with the same identifier; once both have ended, the
    identifier is out of the set. *)
Lemma overlapping_calls_leave_no_request_witness :
  App.activeRequests
    (App.app_state
       (App.interleaving
          [App.begins 7%Z; App.begins 7%Z; App.ends 7%Z; App.begins 8%Z;
           App.ends 7%Z; App.ends 8%Z] Scenario.fresh_page)) = ∅
  /\ 7%Z ∉ App.activeRequests
             (App.app_state
                (App.interleaving
                   ([App.begins 7%Z; App.begins 7%Z; App.ends 7%Z;
                     App.begins 8%Z] ++ App.ends 7%Z :: [App.ends 8%Z])
                   Scenario.fresh_page)).
Proof.
  split; [reflexivity |].
  apply (overlapping_calls_leave_no_request
           [App.begins 7%Z; App.begins 7%Z; App.ends 7%Z; App.begins 8%Z]
           [App.ends 8%Z] 7%Z Scenario.fresh_page).
  intros m [<- | []]. discriminate.
Defined.

(** * formatBytes on whole units and on what is not a size *)

Section FormatBytesUnits.

Import JS App.
Local Open Scope Z_scope.

Lemma floor_log_unique k z e :
  2 <= k -> 0 <= e -> k ^ e <= z < k ^ (e + 1) -> floor_log k z = e.
Proof.
  intros Hk He [Hlo Hhi].
  assert (1 <= z) by (pose proof (Z.pow_pos_nonneg k e); lia).
  destruct (floor_log_spec k z Hk ltac:(lia)) as (Hf & Hflo & Hfhi).
  assert (H1 : k ^ e < k ^ (floor_log k z + 1)) by lia.
  assert (H2 : k ^ floor_log k z < k ^ (e + 1)) by lia.
  apply Z.pow_lt_mono_r_iff in H1; [| lia | lia].
  apply Z.pow_lt_mono_r_iff in H2; [| lia | lia].
  lia.
Qed.

Lemma append_String c (s t : string) :
  (String c s +:+ t)%string = String c (s +:+ t).
Proof. reflexivity. Qed.

Lemma append_empty (s : string) : (s +:+ "")%string = s.
Proof.
  induction s as [| c s IH]; [reflexivity |].
  now rewrite append_String, IH.
Qed.

Lemma zeros_snoc (f : nat) : (zeros f +:+ "0")%string = zeros (S f).
Proof.
  induction f as [| f IH]; [reflexivity |].
  cbn [zeros]. rewrite append_String, IH. reflexivity.
Qed.

Lemma low_digits_of_zero (f : nat) : low_digits f 0 = zeros f.
Proof.
  induction f as [| f IH]; [reflexivity |].
  cbn [low_digits]. change (0 / 10) with 0.
  change (pretty (0 mod 10)) with "0"%string.
  rewrite IH. apply zeros_snoc.
Qed.

(** A digit is none of the characters that the reading of a numeral
    looks for. *)
Lemma digit_is_plain c d :
  digit c = Some d ->
  Ascii.eqb c "." = false /\ Ascii.eqb c "e" = false /\
  Ascii.eqb c "-" = false /\ Ascii.eqb c "I" = false.
Proof.
  destruct c as [[] [] [] [] [] [] [] []]; vm_compute; intros Hd;
    try discriminate Hd; repeat split; reflexivity.
Qed.

Lemma decimal_from_whole (s : string) : forall t acc v den,
  digits_from s acc = Some v ->
  decimal_from (s +:+ t) acc den false = decimal_from t v den false.
Proof.
  induction s as [| c s IH]; intros t acc v den Hs.
  - cbn in Hs. injection Hs as <-. reflexivity.
  - rewrite append_String. cbn [digits_from decimal_from] in Hs |- *.
    destruct (digit c) as [d |] eqn:Hd; [| discriminate].
    destruct (digit_is_plain c d Hd) as (-> & -> & _).
    now apply IH.
Qed.

Lemma decimal_from_zeros (f : nat) : forall num den,
  decimal_from (zeros f) num den true =
    Some (num * 10 ^ Z.of_nat f, den * 10 ^ Z.of_nat f).
Proof.
  induction f as [| f IH]; intros num den.
  - cbn. now rewrite !Z.mul_1_r.
  - cbn [zeros decimal_from].
    change (Ascii.eqb "0" ".") with false.
    change (Ascii.eqb "0" "e") with false.
    change (digit "0") with (Some 0). cbv iota.
    rewrite IH, Nat2Z.inj_succ, Z.pow_succ_r by lia.
    f_equal. f_equal; lia.
Qed.

(** What a whole number from 1 to 1023 is as a text: digits that read
    back as the number, and the text of the double it is. *)
Lemma pretty_whole_number m :
  1 <= m < 1024 ->
  digits_from (pretty m) 0 = Some m /\
  String_of_nearest m 1 = pretty m /\
  String.eqb (pretty m) "0" = false /\
  exists c rest d, pretty m = String c rest /\ digit c = Some d.
Proof.
  intros Hm.
  assert (Hall : forallb
            (fun n =>
               let m := Z.of_nat n in
               match digits_from (pretty m) 0 with
               | Some v => v =? m
               | None => false
               end
               && String.eqb (String_of_nearest m 1) (pretty m)
               && negb (String.eqb (pretty m) "0")
               && match pretty m with
                  | String c _ =>
                      match digit c with Some _ => true | None => false end
                  | EmptyString => false
                  end)
            (seq 1 1023) = true) by (vm_compute; reflexivity).
  rewrite forallb_forall in Hall.
  specialize (Hall (Z.to_nat m)). rewrite Z2Nat.id in Hall by lia.
  cbv zeta in Hall.
  specialize (Hall ltac:(apply in_seq; lia)).
  apply andb_prop in Hall as [Hall Hfirst].
  apply andb_prop in Hall as [Hall Hnot0].
  apply andb_prop in Hall as [Hdigits Htext].
  split.
  { destruct (digits_from (pretty m) 0) as [v |]; [| discriminate].
    apply Z.eqb_eq in Hdigits. now subst v. }
  split; [now apply String.eqb_eq |].
  split; [now apply negb_true_iff |].
  destruct (pretty m) as [| c rest]; [discriminate |].
  destruct (digit c) as [d |] eqn:Hd; [| discriminate].
  now exists c, rest, d.
Qed.

Lemma String_of_fraction_whole m c :
  1 <= m < 1024 -> 0 < c -> String_of_fraction (m * c) (1 * c) = pretty m.
Proof.
  intros Hm Hc. unfold String_of_fraction.
  destruct (m * c =? 0) eqn:Hzero; [apply Z.eqb_eq in Hzero; nia |].
  rewrite Z.mul_1_l.
  assert (Hgcd : Z.gcd (m * c) c = c).
  { rewrite Z.gcd_comm, Z.mul_comm. apply Z.gcd_mul_diag_l. lia. }
  rewrite Hgcd, Z.div_mul, Z.div_same by lia.
  now apply pretty_whole_number.
Qed.

(** [String(parseFloat(s))] gives a whole number back, with or without
    a fraction of zeros. *)
Lemma parseFloat_toString_whole m (f : nat) :
  1 <= m < 1024 ->
  parseFloat_toString (pretty m) = pretty m /\
  parseFloat_toString (pretty m +:+ "." +:+ zeros f) = pretty m.
Proof.
  intros Hm.
  destruct (pretty_whole_number m Hm)
    as (Hdigits & _ & _ & c & rest & d & Htext & Hd).
  destruct (digit_is_plain c d Hd) as (_ & _ & Hsign & Hinfinity).
  assert (Hread : forall t,
            parseFloat_toString (pretty m +:+ t) =
            match decimal_from t m 1 false with
            | Some (num, den) => String_of_fraction num den
            | None => "NaN"%string
            end).
  { intros t. rewrite <- (decimal_from_whole (pretty m) t 0 m 1 Hdigits).
    rewrite Htext, append_String. unfold parseFloat_toString.
    rewrite Hsign. cbv zeta. cbn [String.eqb]. rewrite Hinfinity.
    cbn [andb negb].
    destruct (decimal_from (String c (rest +:+ t)) 0 1 false)
      as [[num den] |]; reflexivity. }
  split.
  - rewrite <- (append_empty (pretty m)) at 1. rewrite Hread. cbn.
    rewrite <- (Z.mul_1_r m) at 1. change 1 with (1 * 1) at 2.
    now apply String_of_fraction_whole.
  - rewrite Hread.
    change ("." +:+ zeros f)%string with (String "." (zeros f)).
    cbn [decimal_from]. change (Ascii.eqb "." ".") with true. cbv iota.
    rewrite decimal_from_zeros.
    apply String_of_fraction_whole; [exact Hm |].
    apply Z.pow_pos_nonneg; lia.
Qed.

Lemma toFixed_whole m K digits :
  1 <= m < 1024 -> 0 < K -> accepts_digits digits = true ->
  exists f : nat,
    toFixed (ratio (m * K) K) digits = inr (pretty m) \/
    toFixed (ratio (m * K) K) digits = inr (pretty m +:+ "." +:+ zeros f).
Proof.
  intros Hm HK Hd.
  assert (Hround : forall scale, 0 < scale ->
            (2 * Z.abs (m * K) * scale + Z.abs K) / (2 * Z.abs K) =
            m * scale).
  { intros scale Hs. rewrite (Z.abs_eq K), (Z.abs_eq (m * K)) by nia.
    symmetry. apply (Z.div_unique _ _ _ K); [lia | nia]. }
  assert (Hsign : (m * K * K <? 0) = false) by (apply Z.ltb_ge; nia).
  assert (Hsmall : (10 ^ 21 * Z.abs K <=? Z.abs (m * K)) = false).
  { apply Z.leb_gt. rewrite (Z.abs_eq K), (Z.abs_eq (m * K)) by nia.
    assert (1024 < 10 ^ 21) by reflexivity. nia. }
  assert (Hf : 0 <= truncated digits <= 100).
  { unfold accepts_digits in Hd.
    destruct digits; try discriminate;
      apply andb_prop in Hd as [Hlo Hhi];
      apply Z.leb_le in Hlo; apply Z.leb_le in Hhi; lia. }
  exists (Z.to_nat (truncated digits)).
  assert (Hscale : 0 < 10 ^ truncated digits)
    by (apply Z.pow_pos_nonneg; lia).
  rewrite (toFixed_accepted _ digits Hd). cbv zeta.
  rewrite Hsign, Hsmall, (Hround _ Hscale), Z.div_mul, Z.mod_mul by lia.
  rewrite low_digits_of_zero.
  destruct (truncated digits =? 0); [now left | now right].
Qed.

Lemma above_at_least decimals :
  above decimals 100 = false -> at_least decimals 101 = false.
Proof.
  destruct decimals as [| | | d | n d]; cbn; try easy; intros Hd;
    apply Z.ltb_ge in Hd; apply Z.leb_gt; lia.
Qed.

(** Whole multiples of a unit: for [m] from 1 to 1023 and each of the
    five units, [formatBytes(m * 1024^i, d)] is [m], a space and the
    [i]-th unit, with no fraction, whatever the count of decimals (at
    most 100, where [toFixed] accepts it). *)
Theorem formatBytes_whole_units (i : nat) (m : Z) (decimals : Number)
    (unit : string) :
  nth_error ["B"; "KB"; "MB"; "GB"; "TB"]%string i = Some unit ->
  1 <= m < 1024 ->
  above decimals 100 = false ->
  formatBytes (int (m * 1024 ^ Z.of_nat i)) decimals =
    inr (pretty m +:+ " " +:+ unit).
Proof.
  intros Hunit Hm Hd.
  assert (Hi : (i < 5)%nat).
  { change 5%nat with (length ["B"; "KB"; "MB"; "GB"; "TB"]%string).
    apply nth_error_Some. rewrite Hunit. discriminate. }
  assert (HK : 0 < 1024 ^ Z.of_nat i) by (apply Z.pow_pos_nonneg; lia).
  assert (Hlog : floor_log 1024 (m * 1024 ^ Z.of_nat i) = Z.of_nat i).
  { apply floor_log_unique; [lia | lia |].
    replace (Z.of_nat i + 1) with (Z.succ (Z.of_nat i)) by lia.
    rewrite Z.pow_succ_r by lia. nia. }
  assert (Hdouble : (2 ^ 1024 <=? 1024 ^ Z.of_nat i) = false).
  { apply Z.leb_gt.
    apply Z.le_lt_trans with (1024 ^ 4); [| reflexivity].
    apply Z.pow_le_mono_r; lia. }
  unfold formatBytes, formatBytes_on, is_zero, Math_floor_log_ratio.
  destruct (m * 1024 ^ Z.of_nat i =? 0) eqn:Hzero;
    [apply Z.eqb_eq in Hzero; nia |].
  destruct (m * 1024 ^ Z.of_nat i <? 0) eqn:Hneg;
    [apply Z.ltb_lt in Hneg; nia |].
  rewrite Hlog. cbn [Math_floor]. unfold div_pow. cbn [Math_floor].
  unfold div_pow_finite.
  destruct (0 <=? Z.of_nat i) eqn:Hi0; [| apply Z.leb_gt in Hi0; lia].
  rewrite Hdouble. unfold element.
  destruct (Z.of_nat i <? 0) eqn:Hi'; [apply Z.ltb_lt in Hi'; lia |].
  rewrite Nat2Z.id, Hunit.
  assert (Hdigits : accepts_digits
                      (if is_negative decimals then int 0 else decimals)
                    = true).
  { rewrite clamped_digits, (above_at_least decimals Hd). reflexivity. }
  rewrite Z.mul_1_l.
  destruct (toFixed_whole m (1024 ^ Z.of_nat i) _ Hm HK Hdigits)
    as (f & Hfixed).
  destruct (parseFloat_toString_whole m f Hm) as [Hwhole Hfraction].
  destruct Hfixed as [-> | ->]; rewrite ?Hwhole, ?Hfraction; reflexivity.
Qed.

(** What is not a size: for a negative number, NaN or an infinity the
    function returns "NaN undefined" and does not throw. *)
Theorem formatBytes_not_a_size (bytes decimals : Number) :
  match bytes with
  | int z => z < 0
  | fraction n _ => n < 0
  | _ => True
  end ->
  above decimals 100 = false ->
  formatBytes bytes decimals = inr "NaN undefined"%string.
Proof.
  intros Hbytes Hd.
  assert (Hdigits : accepts_digits
                      (if is_negative decimals then int 0 else decimals)
                    = true).
  { rewrite clamped_digits, (above_at_least decimals Hd). reflexivity. }
  assert (Hnan : toFixed q_nan
                   (if is_negative decimals then int 0 else decimals) =
                 inr "NaN"%string)
    by (now rewrite (toFixed_accepted q_nan _ Hdigits)).
  unfold formatBytes, formatBytes_on.
  destruct bytes as [| | | z | n d]; cbn -[toFixed].
  - rewrite Hnan. reflexivity.
  - rewrite Hnan. reflexivity.
  - rewrite Hnan. reflexivity.
  - destruct (z =? 0) eqn:Hzero; [apply Z.eqb_eq in Hzero; lia |].
    destruct (z <? 0) eqn:Hneg; [| apply Z.ltb_ge in Hneg; lia].
    cbn -[toFixed]. rewrite Hnan. reflexivity.
  - destruct (n =? 0) eqn:Hzero; [apply Z.eqb_eq in Hzero; lia |].
    destruct (n <? 0) eqn:Hneg; [| apply Z.ltb_ge in Hneg; lia].
    cbn -[toFixed]. rewrite Hnan. reflexivity.
Qed.

End FormatBytesUnits.

(** Five whole megabytes with the default of two decimals. *)
Lemma formatBytes_whole_units_witness :
  App.formatBytes (JS.int (5 * 1024 ^ Z.of_nat 2)) App.default_decimals =
    inr "5 MB"%string.
Proof.
  apply (formatBytes_whole_units 2 5 App.default_decimals "MB");
    [reflexivity | lia | reflexivity].
Defined.

(** A negative size and three decimals. *)
Lemma formatBytes_not_a_size_witness :
  App.formatBytes (JS.int (-2048)) (JS.int 3) = inr "NaN undefined"%string.
Proof.
  apply (formatBytes_not_a_size (JS.int (-2048)) (JS.int 3));
    [cbn; lia | reflexivity].
Defined.

(** * handleApiAction, a caller of makeApiCall *)

Section ApiAction.

Import JS App.

Variable net : Network.
Variable window : Window.

(** However the handler finishes (a result, a refusal, an error of the
    call, a result that is [null], a callback that throws), the element
    is enabled again with the content it had; without an endpoint nothing
    is touched.  The handler is left waiting only by a call that never
    settles, and then the element stays disabled, the request stays
    active, and no notification tells the user. *)
Theorem handleApiAction_releases_element (rid : RequestId)
    (first second : Z * Z) (element : Element) (p : Page) :
  match handleApiAction net window rid first second element p with
  | finished p' element' =>
      match present (data_apiEndpoint element) with
      | Some _ => element' = with_button false (innerHTML element) element
      | None => element' = element /\ p' = p
      end
  | waiting p' element' =>
      disabled element' = true /\
      rid ∈ activeRequests (app_state p') /\
      notifications (app_state p') = notifications (app_state p)
  end.
Proof.
  unfold handleApiAction.
  destruct (present (data_apiEndpoint element)) as [endpoint |];
    [| split; reflexivity].
  unfold makeApiCall.
  destruct (try_block _) as [[error | result] |].
  - reflexivity.
  - destruct (get_property result "success") as [error | success];
      [reflexivity |].
    destruct (truthy success); [| reflexivity].
    destruct (present (data_successCallback element)) as [name |];
      [| reflexivity].
    destruct (window name) as [callback |]; [| reflexivity].
    destruct (callback result _) as [p3 [error |]]; reflexivity.
  - cbn. split; [reflexivity |]. split; [set_solver | reflexivity].
Qed.

Lemma notify_error_state clock error p :
  notifications (app_state (notify_error clock error p)) =
    (notifications (app_state p) ++
     [{| notif_id := clock.1;
         notif_message := "Erreur: " +:+ message error;
         notif_type := "error";
         notif_timestamp := clock.2 |}])%list
  /\ activeRequests (app_state (notify_error clock error p)) =
       activeRequests (app_state p)
  /\ fetched (notify_error clock error p) = fetched p.
Proof. repeat split. Qed.

(** One call, one notification.  When the call settles, the handler
    finishes after exactly one request, leaves the request out of the
    active ones, and adds exactly one notification: of type "success"
    when a result came back whose [success] is truthy, of type "error" in
    every other case, where no callback is looked up.  On success the
    statement is for an element without [data-success-callback], whose
    function could do anything to the page. *)
Theorem handleApiAction_notifies_once (rid : RequestId)
    (first second : Z * Z) (element : Element) (p : Page)
    (endpoint : string) :
  present (data_apiEndpoint element) = Some endpoint ->
  settled
    (makeApiCall net rid endpoint
       (default "POST" (present (data_apiMethod element)))
       default_data no_options p).2 = true ->
  (succeeded
     (makeApiCall net rid endpoint
        (default "POST" (present (data_apiMethod element)))
        default_data no_options p).2 = true ->
   present (data_successCallback element) = None) ->
  exists p' n,
    handleApiAction net window rid first second element p =
      finished p' (with_button false (innerHTML element) element)
    /\ notifications (app_state p') =
         (notifications (app_state p) ++ [n])%list
    /\ notif_type n =
         (if succeeded
               (makeApiCall net rid endpoint
                  (default "POST" (present (data_apiMethod element)))
                  default_data no_options p).2
          then "success" else "error")%string
    /\ activeRequests (app_state p') = activeRequests (app_state p) ∖ {[rid]}
    /\ fetched p' =
         (fetched p ++
          [(endpoint,
            config (app_config p)
              (default "POST" (present (data_apiMethod element)))
              default_data no_options)])%list.
Proof.
  intros Hendpoint. unfold handleApiAction. rewrite Hendpoint.
  unfold makeApiCall.
  destruct (try_block _) as [[error | result] |]; cbn [snd settled succeeded];
    intros Hsettled Hcallback; [| | discriminate].
  - eexists _, _. split; [reflexivity |].
    repeat split. cbn. set_solver.
  - destruct (get_property result "success") as [error | success].
    + eexists _, _. split; [reflexivity |].
      repeat split. cbn. set_solver.
    + destruct (truthy success).
      * rewrite (Hcallback eq_refl).
        eexists _, _. split; [reflexivity |].
        repeat split. cbn. set_solver.
      * eexists _, _. split; [reflexivity |].
        repeat split. cbn. set_solver.
Qed.

End ApiAction.

(** A button that restarts a service, against a server that accepts. *)
Lemma handleApiAction_notifies_once_witness :
  exists p' n,
    App.handleApiAction (Scenario.always Scenario.accepted) (fun _ => None)
      7%Z (1700000000000, 1700000000000)%Z (1700000000001, 1700000000001)%Z
      Scenario.restart_button Scenario.fresh_page =
      App.finished p'
        (App.with_button false "Redémarrer" Scenario.restart_button)
    /\ App.notifications (App.app_state p') = [n]
    /\ App.notif_type n = "success"%string.
Proof.
  destruct (handleApiAction_notifies_once
              (Scenario.always Scenario.accepted) (fun _ => None) 7%Z
              (1700000000000, 1700000000000)%Z
              (1700000000001, 1700000000001)%Z
              Scenario.restart_button Scenario.fresh_page
              "/api/service/restart" eq_refl eq_refl (fun _ => eq_refl))
    as (p' & n & Hrun & Hnotifications & Htype & _).
  exists p', n. repeat split; assumption.
Defined.

(** * Properties of the pipeline *)

Section Assembler.

Import Pipeline.

(** C5.  Whatever the enabled probes return, the assembler records one
    result per probe and marks the report partial exactly when one of them
    failed, full otherwise; and the cycle produces that report and puts it
    in the delivery queue, also when every probe failed. *)
Theorem assemble_completeness_and_enqueue (ctx : Context) (id : ReportId)
    (host : HostIdentity) (version : string) (enabled : list Probe)
    (q : Queue) :
  let r := assemble ctx id host version enabled in
  (completeness r = partial <->
     exists probe, In probe enabled /\ failed (probe ctx) = true)
  /\ (completeness r = full <->
     forall probe, In probe enabled -> failed (probe ctx) = false)
  /\ probe_results r = List.map (fun probe => probe ctx) enabled
  /\ collection_cycle ctx id (Some host) version enabled q =
       (produced r, enqueue (ctx_now ctx) r q)
  /\ (exists e,
        In e (entries (collection_cycle ctx id (Some host) version
                         enabled q).2) /\ report e = r).
Proof.
  cbn zeta.
  assert (Hex : List.existsb failed (List.map (fun probe => probe ctx) enabled)
                = true <->
                exists probe, In probe enabled /\ failed (probe ctx) = true).
  { rewrite existsb_exists. split.
    - intros (res & Hin & Hfailed). apply in_map_iff in Hin.
      destruct Hin as (probe & <- & Hprobe). now exists probe.
    - intros (probe & Hprobe & Hfailed). exists (probe ctx).
      split; [| exact Hfailed]. apply in_map_iff. now exists probe. }
  split; [| split; [| split; [reflexivity | split; [reflexivity |]]]].
  - unfold assemble. cbn [completeness].
    destruct (List.existsb failed _) eqn:Hany.
    + split; [intros _; now apply Hex | reflexivity].
    + split; [discriminate |]. intros Hsome. apply Hex in Hsome.
      discriminate.
  - unfold assemble. cbn [completeness].
    destruct (List.existsb failed _) eqn:Hany.
    + split; [discriminate |]. intros Hnone.
      destruct (proj1 Hex eq_refl) as (probe & Hprobe & Hfailed).
      rewrite (Hnone probe Hprobe) in Hfailed. discriminate.
    + split; [| reflexivity]. intros _ probe Hprobe.
      destruct (failed (probe ctx)) eqn:Hfailed; [| reflexivity].
      assert (false = true) by (apply Hex; now exists probe).
      discriminate.
  - eexists. split.
    + cbn. apply in_or_app. right. left. reflexivity.
    + reflexivity.
Qed.

End Assembler.

Section Scheduler.

Import Pipeline.

Variable policy : Coalescing.

Lemma schedule_step_counts (s : ScheduleState) (ev : Event) :
  running_cycles s = (if in_progress s then 1 else 0) ->
  running_cycles (schedule_step policy s ev) =
    (if in_progress (schedule_step policy s ev) then 1 else 0).
Proof.
  intros Hs. destruct ev as [| | now success]; cbn.
  - unfold on_trigger. destruct (in_progress s); cbn; lia.
  - unfold on_trigger. destruct (in_progress s); cbn; lia.
  - unfold on_finished. destruct (in_progress s) eqn:Hrunning; cbn.
    + destruct policy, (trigger_recorded s); cbn; lia.
    + now rewrite Hrunning.
Qed.

Lemma schedule_run_counts (events : list Event) : forall s,
  running_cycles s = (if in_progress s then 1 else 0) ->
  running_cycles (schedule_run policy events s) =
    (if in_progress (schedule_run policy events s) then 1 else 0).
Proof.
  induction events as [| ev events IH]; intros s Hs; [exact Hs |].
  cbn. apply IH, schedule_step_counts, Hs.
Qed.

(** C6.  After any sequence of timer ticks, manual triggers and cycle
    ends, at most one collection cycle is running.  A trigger that arrives
    while a cycle runs is recorded and starts nothing; when the cycle
    ends, the recorded trigger is dropped or starts the one next cycle,
    as the policy says. *)
Theorem at_most_one_cycle_running (events : list Event) (c : Cadence) :
  let s := schedule_run policy events (initial_schedule c) in
  running_cycles s <= 1
  /\ (forall trigger,
        trigger = timer_elapsed \/ trigger = manual_trigger ->
        in_progress s = true ->
        running_cycles (schedule_step policy s trigger) = running_cycles s
        /\ in_progress (schedule_step policy s trigger) = true
        /\ trigger_recorded (schedule_step policy s trigger) = true)
  /\ (forall now success,
        in_progress s = true ->
        let s' := schedule_step policy s (cycle_finished now success) in
        trigger_recorded s' = false
        /\ running_cycles s' =
             match policy with
             | run_after => if trigger_recorded s then 1 else 0
             | drop_it => 0
             end).
Proof.
  cbn zeta.
  pose proof (schedule_run_counts events (initial_schedule c) eq_refl)
    as Hcount.
  set (s := schedule_run policy events (initial_schedule c)) in *.
  split; [| split].
  - rewrite Hcount. destruct (in_progress s); lia.
  - intros trigger [-> | ->] Hrunning; cbn; unfold on_trigger;
      rewrite Hrunning; cbn; auto.
  - intros now success Hrunning. cbn. unfold on_finished.
    rewrite Hrunning in *. cbn. split; [reflexivity |].
    rewrite Hcount. destruct policy, (trigger_recorded s); reflexivity.
Qed.

End Scheduler.

Section DeliveryQueue.

Import Pipeline.
Local Open Scope Z_scope.

Variable policy : RetryPolicy.

Lemma filter_twice {A} (f : A -> bool) (l : list A) :
  List.filter f (List.filter f l) = List.filter f l.
Proof.
  induction l as [| a l IH]; [reflexivity |]. cbn.
  destruct (f a) eqn:Hfa; cbn; [rewrite Hfa, IH; reflexivity | exact IH].
Qed.

Lemma ack_idempotent id q : ack id (ack id q) = ack id q.
Proof. unfold ack. cbn. now rewrite filter_twice. Qed.

Lemma ack_removes id q e : In e (entries (ack id q)) -> entry_id e <> id.
Proof.
  unfold ack. cbn. intros Hin. apply filter_In in Hin as [_ Hne].
  unfold has_id in Hne. apply negb_true_iff, Z.eqb_neq in Hne. exact Hne.
Qed.

Lemma retried_id why now jitter e :
  entry_id (retried policy why now jitter e) = entry_id e.
Proof. reflexivity. Qed.

(** The entries after a step all come from entries before it, with the
    same report. *)
Lemma sender_step_entries t q e :
  In e (entries (sender_step policy t q).1) ->
  exists e0, In e0 (entries q) /\ entry_id e0 = entry_id e.
Proof.
  unfold sender_step. destruct (peek_ready (turn_now t) q) as [ready |].
  - cbn. destruct (turn_outcome t) as [| why | why]; cbn.
    + intros Hin. apply filter_In in Hin as [Hin _]. now exists e.
    + intros Hin. apply filter_In in Hin as [Hin _].
      apply in_map_iff in Hin as (e0 & <- & Hin0). exists e0.
      split; [exact Hin0 |]. now destruct (has_id _ e0).
    + intros Hin. apply filter_In in Hin as [Hin _].
      apply in_map_iff in Hin as (e0 & <- & Hin0). exists e0.
      split; [exact Hin0 |]. now destruct (has_id _ e0).
  - cbn. intros Hin. now exists e.
Qed.

Lemma sender_step_attempt t q id outcome :
  (sender_step policy t q).2 = Some (id, outcome) ->
  outcome = turn_outcome t /\
  exists e, In e (entries q) /\ entry_id e = id.
Proof.
  unfold sender_step.
  destruct (peek_ready (turn_now t) q) as [ready |] eqn:Hready;
    [| discriminate].
  cbn. intros [= <- <-]. split; [reflexivity |]. exists ready.
  split; [| reflexivity]. unfold peek_ready in Hready.
  now apply find_some in Hready as [Hin _].
Qed.

Lemma drain_cons t turns q :
  drain policy (t :: turns) q =
  ((drain policy turns (sender_step policy t q).1).1,
   match (sender_step policy t q).2 with
   | Some a => a :: (drain policy turns (sender_step policy t q).1).2
   | None => (drain policy turns (sender_step policy t q).1).2
   end).
Proof.
  cbn. destruct (sender_step policy t q) as [q1 attempt]. cbn.
  destruct (drain policy turns q1) as [q2 attempts]. reflexivity.
Qed.

(** A report that is not pending is never sent, and does not come back. *)
Lemma drain_leaves_absent id turns : forall q,
  (forall e, In e (entries q) -> entry_id e <> id) ->
  (forall outcome, ~ In (id, outcome) (drain policy turns q).2) /\
  (forall e, In e (entries (drain policy turns q).1) -> entry_id e <> id).
Proof.
  induction turns as [| t turns IH]; intros q Habsent.
  - cbn. split; [intros outcome [] | exact Habsent].
  - rewrite drain_cons. cbn [fst snd].
    assert (Hnext : forall e, In e (entries (sender_step policy t q).1) ->
                      entry_id e <> id).
    { intros e Hin. apply sender_step_entries in Hin as (e0 & Hin0 & <-).
      now apply Habsent. }
    destruct (IH _ Hnext) as [Hlog Hentries]. split; [| exact Hentries].
    intros outcome.
    destruct ((sender_step policy t q).2) as [[id' outcome'] |] eqn:Hattempt;
      [| apply Hlog].
    intros [[= -> ->] | Hin]; [| exact (Hlog outcome Hin)].
    apply sender_step_attempt in Hattempt as (_ & e & Hin & He).
    exact (Habsent e Hin He).
Qed.

(** One step loses nothing: a pending report stays pending, becomes a
    dead letter, or was delivered by the attempt of this step. *)
Lemma sender_step_keeps t q e :
  In e (entries q) ->
  (exists e', In e' (entries (sender_step policy t q).1) /\
              entry_id e' = entry_id e)
  \/ (exists e', In e' (dead_letters (sender_step policy t q).1) /\
                 entry_id e' = entry_id e)
  \/ (sender_step policy t q).2 = Some (entry_id e, Delivered).
Proof.
  intros Hin. unfold sender_step.
  destruct (peek_ready (turn_now t) q) as [ready |];
    [| left; now exists e].
  cbn. destruct (has_id (entry_id ready) e) eqn:Hsame.
  - assert (Hid : entry_id e = entry_id ready)
      by (now apply Z.eqb_eq in Hsame).
    destruct (turn_outcome t) as [| why | why]; cbn.
    + right. right. now rewrite Hid.
    + set (e' := retried policy why (turn_now t) (turn_jitter t) e).
      assert (Hin' : In e'
                (List.map (fun e0 => if has_id (entry_id ready) e0
                                then retried policy why (turn_now t)
                                       (turn_jitter t) e0
                                else e0) (entries q))).
      { apply in_map_iff. exists e. now rewrite Hsame. }
      assert (Hsame' : has_id (entry_id ready) e' = true) by exact Hsame.
      destruct (exhausted policy e') eqn:Hexhausted.
      * right. left. exists e'. split; [| reflexivity].
        apply in_or_app. right. apply filter_In.
        split; [exact Hin' |]. now rewrite Hsame', Hexhausted.
      * left. exists e'. split; [| reflexivity]. apply filter_In.
        split; [exact Hin' |]. now rewrite Hsame', Hexhausted.
    + right. left. exists (refused why e). split; [| reflexivity].
      apply in_or_app. right. apply filter_In. split; [| exact Hsame].
      apply in_map_iff. exists e. now rewrite Hsame.
  - left. destruct (turn_outcome t) as [| why | why]; cbn.
    + exists e. split; [| reflexivity]. apply filter_In.
      split; [exact Hin |]. now rewrite Hsame.
    + exists e. split; [| reflexivity]. apply filter_In. split.
      * apply in_map_iff. exists e. now rewrite Hsame.
      * now rewrite Hsame.
    + exists e. split; [| reflexivity]. apply filter_In. split.
      * apply in_map_iff. exists e. now rewrite Hsame.
      * now rewrite Hsame.
Qed.

Lemma sender_step_dead_letters t q e :
  In e (dead_letters q) -> In e (dead_letters (sender_step policy t q).1).
Proof.
  intros Hin. unfold sender_step.
  destruct (peek_ready (turn_now t) q) as [ready |]; [| exact Hin].
  cbn. destruct (turn_outcome t); cbn;
    [exact Hin | apply in_or_app; now left | apply in_or_app; now left].
Qed.

Lemma drain_dead_letters turns : forall q e,
  In e (dead_letters q) -> In e (dead_letters (drain policy turns q).1).
Proof.
  induction turns as [| t turns IH]; intros q e Hin; [exact Hin |].
  rewrite drain_cons. cbn [fst]. now apply IH, sender_step_dead_letters.
Qed.

Lemma drain_keeps turns : forall q e,
  In e (entries q) ->
  (exists e', In e' (entries (drain policy turns q).1) /\
              entry_id e' = entry_id e)
  \/ (exists e', In e' (dead_letters (drain policy turns q).1) /\
                 entry_id e' = entry_id e)
  \/ In (entry_id e, Delivered) (drain policy turns q).2.
Proof.
  induction turns as [| t turns IH]; intros q e Hin.
  - left. now exists e.
  - rewrite drain_cons. cbn [fst snd].
    destruct (sender_step_keeps t q e Hin)
      as [(e' & Hin' & Hid) | [(e' & Hin' & Hid) | Hdelivered]].
    + destruct (IH _ e' Hin') as [Hkept | [Hdead | Hlog]].
      * left. now rewrite <- Hid.
      * right. left. now rewrite <- Hid.
      * right. right. rewrite <- Hid.
        destruct ((sender_step policy t q).2); [now right | exact Hlog].
    + right. left. exists e'. split; [| exact Hid].
      now apply drain_dead_letters.
    + right. right. rewrite Hdelivered. now left.
Qed.

(** C7.  Acknowledging a report twice changes nothing the second time;
    after the acknowledgement no pass of the sender attempts the report
    again or finds it in the queue; and the sender loses no report: a
    pending report is still pending after any number of passes, or it is
    a dead letter, or it was delivered. *)
Theorem ack_is_idempotent_and_final (id : ReportId) (q : Queue)
    (turns : list Turn) :
  ack id (ack id q) = ack id q
  /\ (forall outcome,
        ~ In (id, outcome) (drain policy turns (ack id q)).2)
  /\ (forall e, In e (entries (drain policy turns (ack id q)).1) ->
        entry_id e <> id)
  /\ (forall e, In e (entries q) ->
        (exists e', In e' (entries (drain policy turns q).1) /\
                    entry_id e' = entry_id e)
        \/ (exists e', In e' (dead_letters (drain policy turns q).1) /\
                       entry_id e' = entry_id e)
        \/ In (entry_id e, Delivered) (drain policy turns q).2).
Proof.
  split; [apply ack_idempotent |].
  destruct (drain_leaves_absent id turns (ack id q) (ack_removes id q))
    as [Hlog Hentries].
  split; [exact Hlog |]. split; [exact Hentries |].
  intros e Hin. now apply drain_keeps.
Qed.

End DeliveryQueue.

Section Retry.

Import Pipeline.
Local Open Scope Z_scope.

Variable policy : RetryPolicy.

Hypothesis base_positive : 0 < base_backoff policy.
Hypothesis cap_positive : 0 < max_backoff policy.

Lemma backoff_bounds attempt jitter :
  1 <= attempt -> 0 <= jitter ->
  0 < backoff policy attempt jitter <= max_backoff policy.
Proof.
  intros Hattempt Hjitter. unfold backoff.
  assert (0 < 2 ^ (attempt - 1)) by (apply Z.pow_pos_nonneg; lia).
  split; [apply Z.min_glb_lt; nia | apply Z.le_min_l].
Qed.

Lemma peek_ready_eligible now q e :
  peek_ready now q = Some e -> In e (entries q) /\ next_eligible_at e <= now.
Proof.
  unfold peek_ready. intros Hfind. apply find_some in Hfind as [Hin Hready].
  split; [exact Hin |]. now apply Z.leb_le in Hready.
Qed.

Lemma has_id_true id e : has_id id e = true <-> entry_id e = id.
Proof. unfold has_id. apply Z.eqb_eq. Qed.

(** A pass that attempts another report, or none, leaves the entries of
    this one as they were. *)
Lemma sender_step_other t q id x :
  (forall outcome, (sender_step policy t q).2 <> Some (id, outcome)) ->
  In x (entries (sender_step policy t q).1) -> entry_id x = id ->
  In x (entries q).
Proof.
  unfold sender_step.
  destruct (peek_ready (turn_now t) q) as [ready |]; [| now cbn].
  cbn. intros Hother Hin Hid.
  assert (Hne : has_id (entry_id ready) x = false).
  { apply not_true_is_false. rewrite has_id_true. intros Hsame.
    apply (Hother (turn_outcome t)). congruence. }
  destruct (turn_outcome t) as [| why | why]; cbn in Hin.
  - now apply filter_In in Hin as [Hin _].
  - apply filter_In in Hin as [Hin _].
    apply in_map_iff in Hin as (x0 & Hx & Hin0).
    destruct (has_id (entry_id ready) x0) eqn:Hx0; [| now subst x0].
    subst x. unfold has_id in Hne, Hx0. rewrite retried_id in Hne. congruence.
  - apply filter_In in Hin as [Hin _].
    apply in_map_iff in Hin as (x0 & Hx & Hin0).
    destruct (has_id (entry_id ready) x0) eqn:Hx0; [| now subst x0].
    subst x. unfold has_id in Hne, Hx0.
    change (entry_id (refused why x0)) with (entry_id x0) in Hne. congruence.
Qed.

(** After a pass that attempted the report, what is still pending of it
    was put back by [requeue]: one more attempt is counted, and the count
    is within the maximum. *)
Lemma sender_step_same t q id outcome x :
  (sender_step policy t q).2 = Some (id, outcome) ->
  In x (entries (sender_step policy t q).1) -> entry_id x = id ->
  exists x0, In x0 (entries q) /\ entry_id x0 = id /\
    attempt_count x = attempt_count x0 + 1 /\
    attempt_count x <= max_retries policy.
Proof.
  unfold sender_step.
  destruct (peek_ready (turn_now t) q) as [ready |]; [| discriminate].
  cbn. intros [= Hready _] Hin Hid. rewrite Hready in Hin.
  apply has_id_true in Hid.
  destruct (turn_outcome t) as [| why | why]; cbn in Hin.
  - apply filter_In in Hin as [_ Hout]. rewrite Hid in Hout. discriminate.
  - apply filter_In in Hin as [Hin Hkept]. rewrite Hid in Hkept.
    apply in_map_iff in Hin as (x0 & Hx & Hin0).
    destruct (has_id id x0) eqn:Hx0.
    + exists x0. subst x. split; [exact Hin0 |].
      split; [now apply has_id_true |]. split; [reflexivity |].
      cbn in Hkept. apply negb_true_iff in Hkept.
      unfold exhausted in Hkept. cbn in Hkept. now apply Z.ltb_ge in Hkept.
    + subst x0. congruence.
  - apply filter_In in Hin as [_ Hout]. rewrite Hid in Hout. discriminate.
Qed.

Lemma attempts_on_cons id a log :
  attempts_on id (a :: log) =
  if a.1 =? id then S (attempts_on id log) else attempts_on id log.
Proof.
  unfold attempts_on. destruct a as [id' outcome]. cbn.
  destruct (id' =? id); reflexivity.
Qed.

(** The attempts left to a report whose pending entries have counted [c]
    attempts already. *)
Lemma drain_attempts_bound id turns : forall q c,
  0 <= c ->
  (forall x, In x (entries q) -> entry_id x = id ->
     c <= attempt_count x <= max_retries policy) ->
  (attempts_on id (drain policy turns q).2 <=
   Z.to_nat (max_retries policy + 1 - c))%nat.
Proof.
  induction turns as [| t turns IH]; intros q c Hc Hcounts; [cbn; lia |].
  rewrite drain_cons. cbn [snd].
  destruct ((sender_step policy t q).2) as [[id' outcome] |] eqn:Hattempt.
  - rewrite attempts_on_cons. cbn [fst].
    destruct (id' =? id) eqn:Hsame.
    + apply Z.eqb_eq in Hsame. subst id'.
      destruct (sender_step_attempt policy t q id outcome Hattempt)
        as (_ & e & Hin & Hid).
      pose proof (Hcounts e Hin Hid) as He.
      assert (Hnext : (attempts_on id
                         (drain policy turns (sender_step policy t q).1).2 <=
                       Z.to_nat (max_retries policy + 1 - (c + 1)))%nat).
      { apply IH; [lia |]. intros x Hx Hxid.
        destruct (sender_step_same t q id outcome x Hattempt Hx Hxid)
          as (x0 & Hin0 & Hid0 & Hcount & Hmax).
        pose proof (Hcounts x0 Hin0 Hid0). lia. }
      lia.
    + apply IH; [exact Hc |]. intros x Hx Hxid.
      apply Hcounts; [| exact Hxid].
      apply (sender_step_other t q id x); [| exact Hx | exact Hxid].
      rewrite Hattempt. intros outcome' [= Heq _].
      apply Z.eqb_neq in Hsame. contradiction.
  - apply IH; [exact Hc |]. intros x Hx Hxid.
    apply Hcounts; [| exact Hxid].
    apply (sender_step_other t q id x); [| exact Hx | exact Hxid].
    rewrite Hattempt. discriminate.
Qed.

(** C1.  When the sender's attempt on an entry ends in a retryable
    failure, the pass is a [requeue] of the entry: its [attempt_count]
    grows by exactly 1, its [next_eligible_at] moves strictly forward, by
    the exponential interval with jitter capped at the maximum, and the
    entry stays pending while the count is within [max_retries] and is a
    dead letter, out of the queue, once the count exceeds it.  And over
    any passes of the sender, whatever their outcomes, a report is
    attempted at most [max_retries + 1] times.  The last line is the code
    under src/: a [makeApiCall] makes one request, within that bound for
    [APP_CONFIG.maxRetries]. *)
Theorem requeue_counts_backs_off_and_bounds_attempts (t : Turn)
    (q : Queue) (e : Entry) (why : Reason) (id : ReportId)
    (turns : list Turn) (q0 : Queue) (net : App.Network)
    (rid : App.RequestId) (endpoint m : string) (data : JS.Value)
    (options : App.Options) (p : App.Page) :
  peek_ready (turn_now t) q = Some e ->
  turn_outcome t = RetryableFailure why ->
  0 <= turn_jitter t ->
  0 <= attempt_count e ->
  (forall x, In x (entries q0) -> entry_id x = id ->
     0 <= attempt_count x <= max_retries policy) ->
  (sender_step policy t q).1 =
    requeue policy (entry_id e) why (turn_now t) (turn_jitter t) q
  /\ attempt_count (retried policy why (turn_now t) (turn_jitter t) e) =
       attempt_count e + 1
  /\ next_eligible_at e <
       next_eligible_at (retried policy why (turn_now t) (turn_jitter t) e)
  /\ next_eligible_at (retried policy why (turn_now t) (turn_jitter t) e) =
       turn_now t +
       Z.min (max_backoff policy)
         (base_backoff policy * 2 ^ attempt_count e + turn_jitter t)
  /\ (attempt_count e + 1 <= max_retries policy ->
      In (retried policy why (turn_now t) (turn_jitter t) e)
         (entries (sender_step policy t q).1))
  /\ (max_retries policy < attempt_count e + 1 ->
      In (retried policy why (turn_now t) (turn_jitter t) e)
         (dead_letters (sender_step policy t q).1)
      /\ ~ In (retried policy why (turn_now t) (turn_jitter t) e)
             (entries (sender_step policy t q).1))
  /\ (attempts_on id (drain policy turns q0).2 <=
      Z.to_nat (max_retries policy + 1))%nat
  /\ (0 <= App.maxRetries (App.app_config p) ->
      (App.attempts p
         (App.makeApiCall net rid endpoint m data options p).1 <=
       Z.to_nat (App.maxRetries (App.app_config p) + 1))%nat).
Proof.
  intros Hready Hfailure Hjitter Hcount Hfresh.
  destruct (peek_ready_eligible _ _ _ Hready) as [Hin Heligible].
  set (e' := retried policy why (turn_now t) (turn_jitter t) e).
  assert (Hstep : (sender_step policy t q).1 =
            requeue policy (entry_id e) why (turn_now t) (turn_jitter t) q).
  { unfold sender_step. now rewrite Hready, Hfailure. }
  assert (Hbumped : In e'
            (List.map (fun x => if has_id (entry_id e) x
                                then retried policy why (turn_now t)
                                       (turn_jitter t) x
                                else x) (entries q))).
  { apply in_map_iff. exists e. split; [| exact Hin].
    unfold has_id. now rewrite Z.eqb_refl. }
  assert (Hid : has_id (entry_id e) e' = true)
    by (unfold has_id; cbn; apply Z.eqb_refl).
  split; [exact Hstep |]. split; [reflexivity |]. split.
  { cbn. pose proof (backoff_bounds (attempt_count e + 1) (turn_jitter t)
                       ltac:(lia) Hjitter). lia. }
  split.
  { cbn. unfold backoff.
    replace (attempt_count e + 1 - 1) with (attempt_count e) by lia.
    reflexivity. }
  rewrite Hstep. split; [| split; [| split]].
  - intros Hwithin. cbn. apply filter_In. split; [exact Hbumped |].
    rewrite Hid. cbn. apply negb_true_iff, Z.ltb_ge. exact Hwithin.
  - intros Hexceeds.
    assert (Hexhausted : exhausted policy e' = true)
      by (apply Z.ltb_lt; exact Hexceeds).
    split.
    + cbn. apply in_or_app. right. apply filter_In.
      split; [exact Hbumped |]. now rewrite Hid, Hexhausted.
    + cbn. intros Hpending. apply filter_In in Hpending as [_ Hkept].
      rewrite Hid, Hexhausted in Hkept. discriminate.
  - replace (max_retries policy + 1) with (max_retries policy + 1 - 0) by lia.
    apply drain_attempts_bound; [lia | exact Hfresh].
  - intros Hmax. rewrite makeApiCall_attempts. lia.
Qed.


End Retry.

(** The scenario of section 8: the network is down with [max_retries] 3,
    a base backoff of 1 s and a cap of 8 s.  The first failure makes the
    entry eligible again one second later; the intervals are 1 s, 2 s and
    4 s, the fourth failure makes the entry a dead letter, and a fifth
    pass finds nothing to attempt. *)
Lemma requeue_counts_backs_off_and_bounds_attempts_witness :
  Pipeline.next_eligible_at
    (Pipeline.retried Scenario.retry_policy Pipeline.NetworkUnreachable
       0%Z 0%Z Scenario.fresh_entry) = 1000%Z
  /\ (Pipeline.attempts_on 1%Z
        (Pipeline.drain Scenario.retry_policy Scenario.network_outage
           Scenario.one_pending).2 <= 4)%nat
  /\ Pipeline.attempts_on 1%Z
       (Pipeline.drain Scenario.retry_policy Scenario.network_outage
          Scenario.one_pending).2 = 4%nat
  /\ Pipeline.next_eligible_at <$>
       Pipeline.entries
         (Pipeline.drain Scenario.retry_policy
            (take 3 Scenario.network_outage) Scenario.one_pending).1
     = [7000%Z]
  /\ Pipeline.attempt_count <$>
       Pipeline.dead_letters
         (Pipeline.drain Scenario.retry_policy Scenario.network_outage
            Scenario.one_pending).1 = [4%Z]
  /\ Pipeline.entries
       (Pipeline.drain Scenario.retry_policy Scenario.network_outage
          Scenario.one_pending).1 = [].
Proof.
  destruct (requeue_counts_backs_off_and_bounds_attempts
              Scenario.retry_policy ltac:(cbn; lia) ltac:(cbn; lia)
              (Scenario.network_down 0%Z) Scenario.one_pending
              Scenario.fresh_entry Pipeline.NetworkUnreachable 1%Z
              Scenario.network_outage Scenario.one_pending
              (Scenario.always Scenario.accepted)
              7%Z "/api/status"%string "GET"%string JS.null App.no_options
              Scenario.fresh_page eq_refl eq_refl ltac:(cbn; lia)
              ltac:(cbn; lia)
              ltac:(intros x [<- | []] _; cbn; lia))
    as (_ & _ & _ & Hnext & _ & _ & Hbound & _).
  split; [exact Hnext |]. split; [exact Hbound |].
  repeat split; reflexivity.
Defined.

